(** * TexMobject: normalising markup and regrouping rendered glyphs

    A shallow embedding of [manim/mobject/svg/tex_mobject.py]:
    [SingleStringTexMobject] (the string normaliser) and [TexMobject]
    (segmenter, substring assembler, query and colouring layer).

    Python [str] values are lists of code points; the model covers the
    code points below 256, which is the range every literal of the file
    lives in.  Rocq string literals have no escapes, so Python's
    ["\\over"] is written ["\over"] here and Python's ["\\\\"] is
    ["\\"]. *)

From Stdlib Require Import ZArith Ascii String Sorted.
From stdpp Require Import base decidable option list gmap strings.

Local Open Scope nat_scope.

(** ** Python strings *)

Module PyStr.

Abbreviation str := (list ascii).

(** A literal, as a list of code points. *)
Definition py (s : string) : str := list_ascii_of_string s.

(** [str.isspace] on one code point below 256: TAB..CR, FS..US, space,
    NEL and NBSP. *)
Definition isspace (c : ascii) : bool :=
  let n := nat_of_ascii c in
  ((9 <=? n) && (n <=? 13)) || ((28 <=? n) && (n <=? 32))
  || (n =? 133) || (n =? 160).

(** [s.lstrip()], [s.rstrip()], [s.strip()] *)
Fixpoint lstrip (s : str) : str :=
  match s with
  | c :: s' => if isspace c then lstrip s' else s
  | [] => []
  end.

Definition rstrip (s : str) : str := rev (lstrip (rev s)).

Definition strip (s : str) : str := rstrip (lstrip s).

(** [s.count(c)] for a one-character [c] *)
Fixpoint count (c : ascii) (s : str) : nat :=
  match s with
  | [] => 0
  | d :: s' => (if bool_decide (d = c) then 1 else 0) + count c s'
  end.

(** [Some rest] when [s = p + rest] *)
Fixpoint strip_prefix (p s : str) : option str :=
  match p, s with
  | [], _ => Some s
  | _ :: _, [] => None
  | a :: p', b :: s' => if bool_decide (a = b) then strip_prefix p' s' else None
  end.

(** [s.startswith(p)], [s.endswith(p)] *)
Definition startswith (s p : str) : bool :=
  match strip_prefix p s with Some _ => true | None => false end.

Definition endswith (s p : str) : bool := startswith (rev s) (rev p).

(** The leftmost occurrence of [sub] in [s]: what is before it and what
    is after it ([s.partition(sub)] without the middle). *)
Fixpoint find (sub s : str) : option (str * str) :=
  match strip_prefix sub s with
  | Some rest => Some ([], rest)
  | None =>
      match s with
      | [] => None
      | c :: s' =>
          match find sub s' with
          | Some (pre, post) => Some (c :: pre, post)
          | None => None
          end
      end
  end.

(** [sub in s] *)
Definition contains (sub s : str) : bool :=
  match find sub s with Some _ => true | None => false end.

(** [s.split(sep)] for a non-empty [sep]: cut at the leftmost
    occurrence and go on in the rest.  The rest is shorter than [s], so
    [S (length s)] rounds are enough ([split_unfold]). *)
Fixpoint split_fuel (n : nat) (sep s : str) : list str :=
  match n with
  | 0 => [s]
  | S n' =>
      match find sep s with
      | Some (pre, post) => pre :: split_fuel n' sep post
      | None => [s]
      end
  end.

Definition split (s sep : str) : list str := split_fuel (S (length s)) sep s.

(** [s.replace(old, new)] for a non-empty [old]: every occurrence, left
    to right, without overlap. *)
Fixpoint replace_fuel (n : nat) (old new s : str) : str :=
  match n with
  | 0 => s
  | S n' =>
      match find old s with
      | Some (pre, post) => pre ++ new ++ replace_fuel n' old new post
      | None => s
      end
  end.

Definition replace (s old new : str) : str :=
  replace_fuel (S (length s)) old new s.

(** [sep.join(l)] *)
Fixpoint join (sep : str) (l : list str) : str :=
  match l with
  | [] => []
  | [s] => s
  | s :: l' => s ++ sep ++ join sep l'
  end.

(** [str.lower] on one code point below 256: A..Z and the Latin-1
    capitals (all of U+00C0..U+00DE but the multiplication sign). *)
Definition lower_char (c : ascii) : ascii :=
  let n := nat_of_ascii c in
  if ((65 <=? n) && (n <=? 90))
     || ((192 <=? n) && (n <=? 222) && negb (n =? 215))
  then ascii_of_nat (n + 32) else c.

Definition lower (s : str) : str := map lower_char s.

(** [s1 <= s2]: the order of Python strings, code point by code point. *)
Fixpoint str_le (s1 s2 : str) : bool :=
  match s1, s2 with
  | [], _ => true
  | _ :: _, [] => false
  | a :: s1', b :: s2' =>
      let x := nat_of_ascii a in
      let y := nat_of_ascii b in
      if x <? y then true else if y <? x then false else str_le s1' s2'
  end.

End PyStr.

Import PyStr.

(** ** The string normaliser ([SingleStringTexMobject]) *)

Module SingleStringTexMobject.

(** [while num_rights > num_lefts: tex = "{" + tex; num_lefts += 1].
    The loop runs at most [num_rights] times. *)
Fixpoint prepend_lefts (fuel : nat) (tex : str) (num_lefts num_rights : nat)
  : str * nat :=
  match fuel with
  | 0 => (tex, num_lefts)
  | S fuel' =>
      if num_lefts <? num_rights
      then prepend_lefts fuel' (py "{" ++ tex) (num_lefts + 1) num_rights
      else (tex, num_lefts)
  end.

(** [while num_lefts > num_rights: tex = tex + "}"; num_rights += 1] *)
Fixpoint append_rights (fuel : nat) (tex : str) (num_lefts num_rights : nat)
  : str * nat :=
  match fuel with
  | 0 => (tex, num_rights)
  | S fuel' =>
      if num_rights <? num_lefts
      then append_rights fuel' (tex ++ py "}") num_lefts (num_rights + 1)
      else (tex, num_rights)
  end.

Definition remove_stray_braces (tex : str) : str :=
  let num_lefts := count "{" tex in
  let num_rights := count "}" tex in
  let '(tex, num_lefts) := prepend_lefts num_rights tex num_lefts num_rights in
  let '(tex, _) := append_rights num_lefts tex num_lefts num_rights in
  tex.

(** [reduce(op.or_, l)] on a non-empty list of booleans *)
Definition reduce_or (l : list bool) : bool :=
  match l with
  | [] => false
  | b :: l' => fold_left orb l' b
  end.

Definition should_add_filler (tex : str) : bool :=
  reduce_or
    [ bool_decide (tex = py "\over");
      bool_decide (tex = py "\overline");
      bool_decide (tex = py "\sqrt");
      endswith tex (py "_");
      endswith tex (py "^");
      endswith tex (py "dot") ].

(** [len([s for s in tex.split(substr)[1:] if s and s[0] in "(){}[]|.\\"])] *)
Definition opens_delimiter (s : str) : bool :=
  match s with
  | [] => false
  | c :: _ => bool_decide (c ∈ py "(){}[]|.\")
  end.

Definition num_delims (tex substr : str) : nat :=
  length (List.filter opens_delimiter (tail (split tex substr))).

(** One round of [for context in ["array"]: ...] *)
Definition check_context (tex context : str) : str :=
  let begin_in := contains (py "\begin{" ++ context ++ py "}") tex in
  let end_in := contains (py "\end{" ++ context ++ py "}") tex in
  if xorb begin_in end_in then [] else tex.

(** The rewrites of [modify_special_strings] before its last loop. *)
Definition add_filler (tex : str) : str :=
  if should_add_filler tex then tex ++ py "{\quad}" else tex.

Definition replace_substack (tex : str) : str :=
  if bool_decide (tex = py "\substack") then py "\quad" else tex.

Definition replace_empty (tex : str) : str :=
  if bool_decide (tex = []) then py "\quad" else tex.

Definition guard_line_break (tex : str) : str :=
  if startswith tex (py "\\") then replace tex (py "\\") (py "\quad\\") else tex.

Definition balance_left_right (tex : str) : str :=
  let num_lefts := num_delims tex (py "\left") in
  let num_rights := num_delims tex (py "\right") in
  if bool_decide (num_lefts ≠ num_rights)
  then replace (replace tex (py "\left") (py "\big")) (py "\right") (py "\big")
  else tex.

Definition special_rewrites (tex : str) : str :=
  balance_left_right
    (guard_line_break
       (replace_empty (replace_substack (add_filler (remove_stray_braces tex))))).

Definition modify_special_strings (tex : str) : str :=
  fold_left check_context [py "array"] (special_rewrites tex).

Definition get_modified_expression (alignment tex_string : str) : str :=
  let result := alignment ++ py " " ++ tex_string in
  let result := strip result in
  modify_special_strings result.

End SingleStringTexMobject.

Import SingleStringTexMobject.

(** ** Python values the methods work on *)

Module Py.

Inductive exn := IndexError | TypeError.

(** What a call gives: a value, or a raised exception. *)
Inductive result (T : Type) :=
| Ok (x : T)
| Raise (e : exn).

Arguments Ok {T} x.
Arguments Raise {T} e.

Definition bind {T U : Type} (r : result T) (k : T → result U) : result U :=
  match r with
  | Ok x => k x
  | Raise e => Raise e
  end.

(** [l[i]]: a negative index counts from the end; out of range raises. *)
Definition getitem {T : Type} (l : list T) (i : Z) : result T :=
  let n := Z.of_nat (length l) in
  let j := if (i <? 0)%Z then (i + n)%Z else i in
  if ((0 <=? j) && (j <? n))%Z
  then match l !! Z.to_nat j with
       | Some x => Ok x
       | None => Raise IndexError
       end
  else Raise IndexError.

(** [l[a:b]] for [0 <= a <= b]: both ends are clamped to [len(l)]. *)
Definition slice {T : Type} (l : list T) (a b : nat) : list T :=
  take (b - a) (drop a l).

End Py.

Import Py.

Notation "x ←! r ; k" := (bind r (λ x, k))
  (at level 20, r at level 100, k at level 200, right associativity,
   only parsing).

(** ** Segmenter, assembler and queries ([TexMobject]) *)

Module TexModel.

Abbreviation Color := str.

(** A key of [tex_to_color_map]: one string, or a tuple of strings. *)
Inductive TexKey :=
| Single (tex : str)
| Many (texs : list str).

Section Shapes.

(** [A]: the leaf shapes ([TexSymbol]) an SVG file is parsed into.
    [Pos]: points of the scene. *)
Context {A Pos : Type}.

(** A submobject of a part: a glyph of the whole render, or the
    [VectorizedPoint] of a part that renders nothing, given by where it
    is. *)
Inductive Submobject :=
| TexSymbol (a : A)
| VectorizedPoint (p : Pos).

(** The [SingleStringTexMobject] made for one element of [tex_strings]. *)
Record Part := {
  tex_string : str;
  submobjects : list Submobject;
  color : option Color
}.

Definition get_tex_string (m : Part) : str := tex_string m.

(** [part.set_color(color)] *)
Definition set_color (c : Color) (m : Part) : Part :=
  {| tex_string := tex_string m; submobjects := submobjects m; color := Some c |}.

Record TexMobject := {
  arg_separator : str;
  substrings_to_isolate : list TexKey;
  tex_to_color_map : list (TexKey * Color);
  tex_strings : list str;
  alignment : str;
  type : str;
  parts : list Part
}.

(** Code of the repository that is not in this file:
    - [svg_submobjects e t]: the shapes [SVGMobject] reads from the file
      [tex_to_svg_file(e, t)];
    - [right_edge a]: [a.get_critical_point(RIGHT)], the point
      [move_to(a, RIGHT)] brings a [VectorizedPoint] to;
    - [split_string_list_to_isolate_substrings]. *)
Variable svg_submobjects : str → str → list A.
Variable right_edge : A → Pos.
Variable split_string_list_to_isolate_substrings :
  list str → list TexKey → list str.

(** *** [break_up_tex_strings] *)

Definition break_up_tex_strings (self : TexMobject) (tex_strings : list str)
  : list str :=
  let substrings_to_isolate :=
    substrings_to_isolate self ++ (tex_to_color_map self).*1 in
  let split_list :=
    split_string_list_to_isolate_substrings tex_strings substrings_to_isolate in
  let split_list :=
    if bool_decide (arg_separator self = py " ")
    then map strip split_list
    else split_list in
  let split_list := List.filter (λ s, bool_decide (s ≠ [])) split_list in
  split_list.

(** *** [break_up_by_substrings] *)

(** [len(sub_tex_mob.submobjects)] for
    [sub_tex_mob = SingleStringTexMobject.from_other_config(tex_string, **config)]:
    of [config], [from_other_config] keeps [type] and [alignment = ""]. *)
Definition num_submobs_of (type tex_string : str) : nat :=
  length (svg_submobjects (get_modified_expression [] tex_string) type).

(** The body of [for tex_string in self.tex_strings], on the flat render
    [flat] (the [self.submobjects] the method starts from) and the loop
    state [(new_submobjects, curr_index)]. *)
Definition break_up_step (flat : list A) (type : str)
    (st : list Part * nat) (tex_string : str) : result (list Part * nat) :=
  let '(new_submobjects, curr_index) := st in
  let num_submobs := num_submobs_of type tex_string in
  let new_index := curr_index + num_submobs in
  subs ←!
    (if num_submobs =? 0
     then
       let last_submob_index :=
         Z.min (Z.of_nat curr_index) (Z.of_nat (length flat) - 1) in
       target ←! getitem flat last_submob_index;
       Ok [VectorizedPoint (right_edge target)]
     else Ok (TexSymbol <$> slice flat curr_index new_index));
  let sub_tex_mob :=
    {| tex_string := tex_string; submobjects := subs; color := None |} in
  Ok (new_submobjects ++ [sub_tex_mob], new_index).

Fixpoint break_up_loop (flat : list A) (type : str)
    (tex_strings : list str) (st : list Part * nat)
  : result (list Part * nat) :=
  match tex_strings with
  | [] => Ok st
  | tex_string :: rest =>
      st' ←! break_up_step flat type st tex_string;
      break_up_loop flat type rest st'
  end.

(** [self.break_up_by_substrings()]; the new [self.submobjects]. *)
Definition break_up_by_substrings (self : TexMobject) (flat : list A)
  : result (list Part) :=
  st ←! break_up_loop flat (type self) (tex_strings self) ([], 0);
  Ok st.1.


(** *** [get_parts_by_tex], [get_part_by_tex] *)

(** The local function [test(tex1, tex2)] of [get_parts_by_tex]. *)
Definition test (substring case_sensitive : bool) (tex1 tex2 : str) : bool :=
  let tex1 := if negb case_sensitive then lower tex1 else tex1 in
  let tex2 := if negb case_sensitive then lower tex2 else tex2 in
  if substring then contains tex1 tex2 else bool_decide (tex1 = tex2).

(** The submobjects of the [VGroup] the method returns. *)
Definition get_parts_by_tex (self : TexMobject) (tex : str)
    (substring case_sensitive : bool) : list Part :=
  List.filter (λ m, test substring case_sensitive tex (get_tex_string m))
    (parts self).

(** [all_parts[0] if all_parts else None] *)
Definition get_part_by_tex (self : TexMobject) (tex : str)
    (substring case_sensitive : bool) : option Part :=
  let all_parts := get_parts_by_tex self tex substring case_sensitive in
  match all_parts with
  | m :: _ => Some m
  | [] => None
  end.

(** *** The mutators, on the fields of [self] *)

Definition with_parts (self : TexMobject) (ps : list Part) : TexMobject :=
  {| arg_separator := arg_separator self;
     substrings_to_isolate := substrings_to_isolate self;
     tex_to_color_map := tex_to_color_map self;
     tex_strings := tex_strings self;
     alignment := alignment self;
     type := type self;
     parts := ps |}.

(** [for part in parts_to_color: part.set_color(color)].  The parts of
    the returned group are the matching members of [self.submobjects]
    themselves, so each of those is recoloured where it stands. *)
Definition color_by_tex (tex : str) (c : Color)
    (substring case_sensitive : bool) (self : TexMobject) : TexMobject :=
  with_parts self
    (map (λ m, if test substring case_sensitive tex (get_tex_string m)
               then set_color c m else m)
       (parts self)).

(** The body of [for texs, color in list(texs_to_color_map.items())]:
    [texs + ""] raises [TypeError] on a tuple, which the loop catches. *)
Definition color_by_item (substring case_sensitive : bool)
    (self : TexMobject) (item : TexKey * Color) : TexMobject :=
  match item with
  | (Single tex, c) => color_by_tex tex c substring case_sensitive self
  | (Many texs, c) =>
      fold_left (λ s tex, color_by_tex tex c substring case_sensitive s) texs self
  end.

(** [list.sort(key=...)]: stable, ascending. *)
Fixpoint insert_by_key (m : Part) (l : list Part) : list Part :=
  match l with
  | [] => [m]
  | m' :: l' =>
      if str_le (get_tex_string m) (get_tex_string m')
      then m :: l
      else m' :: insert_by_key m l'
  end.

Definition sort_by_key (l : list Part) : list Part :=
  foldr insert_by_key [] l.

(** *** The mutators, as methods of an object in the store *)

Abbreviation loc := positive.

(** What a method returns: [None], or a reference to an object. *)
Inductive value :=
| PyNone
| PyRef (l : loc).

Abbreviation heap := (gmap loc TexMobject).

(** A method body that updates the fields of [self] and returns [ret];
    nothing when [self] is not an object of the store. *)
Definition method (self : loc) (f : TexMobject → TexMobject) (ret : value)
    (h : heap) : option (value * heap) :=
  obj ← h !! self;
  Some (ret, <[self := f obj]> h).

Definition set_color_by_tex (self : loc) (tex : str) (c : Color)
    (substring case_sensitive : bool) : heap → option (value * heap) :=
  method self (color_by_tex tex c substring case_sensitive) (PyRef self).

Definition set_color_by_tex_to_color_map (self : loc)
    (texs_to_color_map : list (TexKey * Color))
    (substring case_sensitive : bool) : heap → option (value * heap) :=
  method self
    (λ obj, fold_left (color_by_item substring case_sensitive)
              texs_to_color_map obj)
    (PyRef self).

(** [self.submobjects.sort(key=lambda m: m.get_tex_string())], and no
    [return]. *)
Definition sort_alphabetically (self : loc) : heap → option (value * heap) :=
  method self (λ obj, with_parts obj (sort_by_key (parts obj))) PyNone.

End Shapes.

Arguments Submobject : clear implicits.
Arguments Part : clear implicits.
Arguments TexMobject : clear implicits.

End TexModel.

Import TexModel.

(** ** Measures used to state the properties *)

(** How many more ["{"] than ["}"] a string holds. *)
Definition brace_excess (s : str) : Z :=
  (Z.of_nat (count "{" s) - Z.of_nat (count "}" s))%Z.

Section Measures.

Context {A Pos : Type}.
Variable svg_submobjects : str → str → list A.
Variable right_edge : A → Pos.

(** The glyphs of the whole render a part owns, in order. *)
Definition glyphs (g : Part A Pos) : list A :=
  omap (λ m, match m with TexSymbol a => Some a | VectorizedPoint _ => None end)
    (submobjects g).

(** The sum of the counts the substrings render to on their own. *)
Definition total_submobs (type : str) (tex_strings : list str) : nat :=
  sum_list (num_submobs_of svg_submobjects type <$> tex_strings).

(** What the loop body makes of [tex_string] with the cursor at [i]. *)
Definition part_at (flat : list A) (type : str) (i : nat) (tex_string : str)
    (g : Part A Pos) : Prop :=
  let c := num_submobs_of svg_submobjects type tex_string in
  TexModel.tex_string g = tex_string ∧ color g = None ∧
  ((c = 0 ∧ ∃ a, flat !! (i `min` (length flat - 1)) = Some a ∧
               submobjects g = [VectorizedPoint (right_edge a)])
   ∨ (0 < c ∧ submobjects g = TexSymbol <$> slice flat i (i + c))).

(** The parts the loop makes of [tex_strings], started with the cursor
    at [i]. *)
Fixpoint parts_from (flat : list A) (type : str) (i : nat)
    (tex_strings : list str) (gs : list (Part A Pos)) : Prop :=
  match tex_strings, gs with
  | [], [] => True
  | s :: tex_strings', g :: gs' =>
      part_at flat type i s g ∧
      parts_from flat type (i + num_submobs_of svg_submobjects type s)
        tex_strings' gs'
  | _, _ => False
  end.

(** Where [move_to(g, RIGHT)] brings a point, for a part [g] whose shapes
    lie left to right: the right edge of its last shape. *)
Definition part_right_edge (g : Part A Pos) : option Pos :=
  match last (submobjects g) with
  | Some (TexSymbol a) => Some (right_edge a)
  | Some (VectorizedPoint p) => Some p
  | None => None
  end.

(** The placeholder's place in the words of the specification: that of
    the group before it, or of the first flat leaf when there is none. *)
Definition spec_placeholder_position (flat : list A)
    (preceding : option (Part A Pos)) : option Pos :=
  match preceding with
  | Some g => part_right_edge g
  | None => right_edge <$> head flat
  end.

End Measures.

(** ** Sample renders

    A renderer on a handful of expressions; a leaf is named by the
    abscissa of its right edge. *)

Definition sample_svg (expression type : str) : list nat :=
  if bool_decide (expression = py "a {} b") then [10; 20]
  else if bool_decide (expression = py "a") then [11]
  else if bool_decide (expression = py "b") then [21]
  else if bool_decide (expression = py "x y") then [30; 40]
  else if bool_decide (expression = py "x") then [31]
  else if bool_decide (expression = py "y") then [41; 42]
  else [].

Definition sample_object (tex_strings : list str) : TexMobject nat nat :=
  {| arg_separator := py " ";
     substrings_to_isolate := [];
     tex_to_color_map := [];
     tex_strings := tex_strings;
     alignment := [];
     type := py "tex";
     parts := [] |}.

(** [self.submobjects] when [break_up_by_substrings] starts: the render
    of the joined strings. *)
Definition sample_flat (self : TexMobject nat nat) : list nat :=
  sample_svg
    (get_modified_expression (alignment self)
       (join (arg_separator self) (tex_strings self)))
    (type self).

(** Three strings, the middle one rendering to nothing. *)
Definition sample_abc : TexMobject nat nat :=
  sample_object [py "a"; py "{}"; py "b"].

(** Two strings whose own renders hold three shapes, the joined render
    two. *)
Definition sample_xy : TexMobject nat nat :=
  sample_object [py "x"; py "y"].

(** One string that renders to nothing, alone and joined. *)
Definition sample_empty : TexMobject nat nat :=
  sample_object [py "{}"].

(** The tree [break_up_by_substrings] makes of [sample_abc]. *)
Definition sample_abc_tree : list (Part nat nat) :=
  [ {| tex_string := py "a"; submobjects := [TexSymbol 10]; color := None |};
    {| tex_string := py "{}"; submobjects := [VectorizedPoint 20];
       color := None |};
    {| tex_string := py "b"; submobjects := [TexSymbol 20]; color := None |} ].

(** When a part tagged [tex2] answers the query [tex1]: [tex1] lies
    within [tex2], or is [tex2] when [substring] is off, both lowercased
    first when [case_sensitive] is off. *)
Definition tex_matches (substring case_sensitive : bool) (tex1 tex2 : str)
  : Prop :=
  let t1 := if case_sensitive then tex1 else lower tex1 in
  let t2 := if case_sensitive then tex2 else lower tex2 in
  if substring then ∃ pre post, t2 = pre ++ t1 ++ post else t1 = t2.

(** Parts tagged ["x"], ["x^2"] and ["y"]. *)
Definition sample_tagged : TexMobject nat nat :=
  {| arg_separator := py " ";
     substrings_to_isolate := [];
     tex_to_color_map := [];
     tex_strings := [py "x"; py "x^2"; py "y"];
     alignment := [];
     type := py "tex";
     parts :=
       [ {| tex_string := py "x"; submobjects := [TexSymbol 1]; color := None |};
         {| tex_string := py "x^2"; submobjects := [TexSymbol 2; TexSymbol 3];
            color := None |};
         {| tex_string := py "y"; submobjects := [TexSymbol 4]; color := None |} ]
  |}.

(** A store with [sample_tagged] as its one object. *)
Definition sample_heap : gmap positive (TexMobject nat nat) :=
  {[ 1%positive := sample_tagged ]}.

(** ** Construction ([TexMobject.__attrs_post_init__]) *)

Section Construction.

Context {A Pos : Type}.

(** Code of the repository that is not in this file, besides the three
    above: [Mobject.sort], by which [organize_submobjects_left_to_right]
    reorders the leaves, and later the parts, by abscissa. *)
Variable svg_submobjects : str → str → list A.
Variable right_edge : A → Pos.
Variable split_string_list_to_isolate_substrings :
  list str → list TexKey → list str.
Variable sort_leaves : list A → list A.
Variable sort_parts : list (Part A Pos) → list (Part A Pos).

Definition with_tex_strings (self : TexMobject A Pos) (l : list str)
  : TexMobject A Pos :=
  {| arg_separator := arg_separator self;
     substrings_to_isolate := substrings_to_isolate self;
     tex_to_color_map := tex_to_color_map self;
     tex_strings := l;
     alignment := alignment self;
     type := type self;
     parts := parts self |}.

(** [SingleStringTexMobject.__attrs_post_init__]: the leaves read from
    the render of [self.tex_string]; scaling moves no leaf to another
    place in the list. *)
Definition single_string_post_init (organize_left_to_right : bool)
    (self : TexMobject A Pos) (tex_string : str) : list A :=
  let file_name := get_modified_expression (alignment self) tex_string in
  let submobjects := svg_submobjects file_name (type self) in
  if organize_left_to_right then sort_leaves submobjects else submobjects.

(** [TexMobject.__attrs_post_init__]; colouring runs with the defaults
    [substring=True], [case_sensitive=True]. *)
Definition post_init (organize_left_to_right : bool)
    (self : TexMobject A Pos) : result (TexMobject A Pos) :=
  let self :=
    with_tex_strings self
      (break_up_tex_strings split_string_list_to_isolate_substrings self
         (tex_strings self)) in
  let tex_string := join (arg_separator self) (tex_strings self) in
  let flat := single_string_post_init organize_left_to_right self tex_string in
  tree ←! break_up_by_substrings svg_submobjects right_edge self flat;
  let self := with_parts self tree in
  let self :=
    fold_left (color_by_item true true) (tex_to_color_map self) self in
  let self :=
    if organize_left_to_right
    then with_parts self (sort_parts (parts self))
    else self in
  Ok self.

End Construction.

(** An object with one colour key, to be constructed over
    [sample_svg]. *)
Definition sample_colored : TexMobject nat nat :=
  {| arg_separator := py " ";
     substrings_to_isolate := [];
     tex_to_color_map := [(Single (py "b"), py "red")];
     tex_strings := [py "a"; py "{}"; py "b"];
     alignment := [];
     type := py "tex";
     parts := [] |}.

(** A render where the first of two strings renders to nothing. *)
Definition sample_svg_lead (expression type : str) : list nat :=
  if bool_decide (expression = py "{} b") then [20]
  else if bool_decide (expression = py "b") then [21]
  else [].

Definition sample_lead : TexMobject nat nat :=
  sample_object [py "{}"; py "b"].

Definition sample_lead_flat : list nat :=
  sample_svg_lead
    (get_modified_expression (alignment sample_lead)
       (join (arg_separator sample_lead) (tex_strings sample_lead)))
    (type sample_lead).

Definition sample_lead_tree : list (Part nat nat) :=
  [ {| tex_string := py "{}"; submobjects := [VectorizedPoint 20];
       color := None |};
    {| tex_string := py "b"; submobjects := [TexSymbol 20]; color := None |} ].

(** ** [SingleStringTexMobject.from_other_config] *)

Section Config.

(** [V]: the values keyword arguments carry. *)
Context {V : Type}.

(** The keyword arguments [cls] is called with: those of [kwargs] whose
    key names a field of [cls] ([fields], the keys of
    [attr.fields_dict(cls)]), and [tex_string].  A call that gives
    [tex_string] a second time raises [TypeError]. *)
Definition from_other_config (fields : gset string) (tex_string : V)
    (kwargs : gmap string V) : result (gmap string V) :=
  let new_kwargs := filter (λ kv, kv.1 ∈ fields) kwargs in
  if decide (is_Some (new_kwargs !! "tex_string"%string))
  then Raise TypeError
  else Ok (<["tex_string"%string := tex_string]> new_kwargs).

End Config.

(** The fields [SingleStringTexMobject] declares, and the [config] that
    [break_up_by_substrings] passes on, its values numbered. *)
Definition sample_fields : gset string :=
  list_to_set
    [ "stroke_width"; "fill_opacity"; "background_stroke_width";
      "background_stroke_color"; "should_center"; "height";
      "organize_left_to_right"; "alignment"; "type"; "tex_string" ]%string.

Definition sample_config : gmap string nat :=
  list_to_map
    [ ("substrings_to_isolate", 1); ("tex_to_color_map", 2);
      ("type", 3); ("alignment", 4) ]%string.

(** * Properties *)

(** ** Strings *)

Section StrFacts.

Implicit Types (s p sub pre post old new : str) (c : ascii).

Lemma count_app c s1 s2 : count c (s1 ++ s2) = count c s1 + count c s2.
Proof. induction s1 as [|d s1 IH]; simpl; [done | rewrite IH; lia]. Qed.

Lemma strip_prefix_Some p s rest : strip_prefix p s = Some rest → s = p ++ rest.
Proof.
  revert s. induction p as [|a p IH]; intros [|b s]; simpl; try congruence.
  case_bool_decide as Hab; [|done]. intros Hrest. subst b. f_equal. by apply IH.
Qed.

Lemma strip_prefix_app p rest : strip_prefix p (p ++ rest) = Some rest.
Proof.
  induction p as [|a p IH]; simpl; [by destruct rest|].
  by rewrite bool_decide_eq_true_2.
Qed.

Lemma startswith_spec s p : startswith s p = true ↔ ∃ rest, s = p ++ rest.
Proof.
  unfold startswith. split.
  - destruct (strip_prefix p s) as [rest|] eqn:E; [|done].
    intros _. exists rest. by apply strip_prefix_Some.
  - intros [rest ->]. by rewrite strip_prefix_app.
Qed.

Lemma find_Some sub s pre post :
  find sub s = Some (pre, post) → s = pre ++ sub ++ post.
Proof.
  revert pre. induction s as [|d s IH]; intros pre; simpl.
  - destruct (strip_prefix sub []) eqn:E; [|done].
    intros [= <- <-]. by apply strip_prefix_Some in E.
  - destruct (strip_prefix sub (d :: s)) eqn:E.
    + intros [= <- <-]. by apply strip_prefix_Some in E.
    + destruct (find sub s) as [[pre' post']|]; [|done].
      intros [= <- <-]. simpl. f_equal. by apply IH.
Qed.

Lemma find_prefix sub s rest :
  strip_prefix sub s = Some rest → find sub s = Some ([], rest).
Proof. intros E. destruct s; simpl; by rewrite E. Qed.

Lemma find_app pre sub post : is_Some (find sub (pre ++ sub ++ post)).
Proof.
  induction pre as [|d pre IH]; simpl.
  - erewrite find_prefix; [eauto | apply strip_prefix_app].
  - destruct (strip_prefix sub (d :: pre ++ sub ++ post)); [eauto|].
    destruct IH as [[pre' post'] ->]. eauto.
Qed.

(** [sub in s] holds exactly when [s] is [pre + sub + post]. *)
Lemma contains_spec sub s :
  contains sub s = true ↔ ∃ pre post, s = pre ++ sub ++ post.
Proof.
  unfold contains. split.
  - destruct (find sub s) as [[pre post]|] eqn:E; [|done].
    intros _. exists pre, post. by apply find_Some.
  - intros (pre & post & ->).
    by destruct (find_app pre sub post) as [x ->].
Qed.

Lemma find_shorter sub s pre post :
  sub ≠ [] → find sub s = Some (pre, post) → length post < length s.
Proof.
  intros Hsub H. apply find_Some in H. subst s.
  rewrite !length_app. destruct sub; [done|]. simpl. lia.
Qed.

(** The rounds [split] and [replace] are given are enough. *)
Lemma replace_fuel_enough old new n m s :
  old ≠ [] → length s < n → length s < m →
  replace_fuel n old new s = replace_fuel m old new s.
Proof.
  intros Hold. revert m s. induction n as [|n IH]; intros m s Hn Hm; [lia|].
  destruct m as [|m]; [lia|]. simpl.
  destruct (find old s) as [[pre post]|] eqn:E; [|done].
  pose proof (find_shorter _ _ _ _ Hold E).
  do 2 f_equal. apply IH; lia.
Qed.

Lemma replace_unfold s old new :
  old ≠ [] →
  replace s old new =
    match find old s with
    | Some (pre, post) => pre ++ new ++ replace post old new
    | None => s
    end.
Proof.
  intros Hold. unfold replace at 1. simpl.
  destruct (find old s) as [[pre post]|] eqn:E; [|done].
  pose proof (find_shorter _ _ _ _ Hold E).
  do 2 f_equal. apply replace_fuel_enough; [done | lia | lia].
Qed.

Lemma split_fuel_enough sep n m s :
  sep ≠ [] → length s < n → length s < m →
  split_fuel n sep s = split_fuel m sep s.
Proof.
  intros Hsep. revert m s. induction n as [|n IH]; intros m s Hn Hm; [lia|].
  destruct m as [|m]; [lia|]. simpl.
  destruct (find sep s) as [[pre post]|] eqn:E; [|done].
  pose proof (find_shorter _ _ _ _ Hsep E).
  f_equal. apply IH; lia.
Qed.

Lemma split_unfold s sep :
  sep ≠ [] →
  split s sep =
    match find sep s with
    | Some (pre, post) => pre :: split post sep
    | None => [s]
    end.
Proof.
  intros Hsep. unfold split at 1. simpl.
  destruct (find sep s) as [[pre post]|] eqn:E; [|done].
  pose proof (find_shorter _ _ _ _ Hsep E).
  f_equal. apply split_fuel_enough; [done | lia | lia].
Qed.

(** Replacing [old] by [new] keeps the number of [c] when both hold as
    many. *)
Lemma count_replace_fuel c n old new s :
  count c old = count c new →
  count c (replace_fuel n old new s) = count c s.
Proof.
  intros Hc. revert s. induction n as [|n IH]; intros s; simpl; [done|].
  destruct (find old s) as [[pre post]|] eqn:E; [|done].
  apply find_Some in E. subst s.
  rewrite !count_app, IH. lia.
Qed.

Lemma count_replace c s old new :
  count c old = count c new → count c (replace s old new) = count c s.
Proof. apply count_replace_fuel. Qed.

Lemma replace_fuel_nonempty n old new s :
  new ≠ [] → s ≠ [] → replace_fuel n old new s ≠ [].
Proof.
  intros Hnew Hs. destruct n as [|n]; simpl; [done|].
  destruct (find old s) as [[pre post]|]; [|done].
  intros H. apply app_eq_nil in H as [_ H1].
  apply app_eq_nil in H1 as [H2 _]. done.
Qed.

Lemma replace_nonempty s old new : new ≠ [] → s ≠ [] → replace s old new ≠ [].
Proof. apply replace_fuel_nonempty. Qed.

End StrFacts.

(** ** The normaliser *)

Section Normaliser.

Implicit Types (tex u t alignment : str).

Lemma replicate_snoc_app {T} (x : T) n (l : list T) :
  replicate n x ++ x :: l = x :: replicate n x ++ l.
Proof. induction n as [|n IH]; simpl; [done | by rewrite IH]. Qed.

Lemma prepend_lefts_spec fuel tex l r :
  r - l ≤ fuel →
  prepend_lefts fuel tex l r = (replicate (r - l) "{"%char ++ tex, l `max` r).
Proof.
  revert tex l. induction fuel as [|fuel IH]; intros tex l Hf; simpl.
  - replace (r - l) with 0 by lia. simpl. f_equal. lia.
  - destruct (Nat.ltb_spec l r) as [Hlt|Hge].
    + rewrite IH by lia. replace (r - l) with (S (r - (l + 1))) by lia.
      simpl. rewrite replicate_snoc_app. f_equal. lia.
    + replace (r - l) with 0 by lia. simpl. f_equal. lia.
Qed.

Lemma append_rights_spec fuel tex l r :
  l - r ≤ fuel →
  append_rights fuel tex l r = (tex ++ replicate (l - r) "}"%char, l `max` r).
Proof.
  revert tex r. induction fuel as [|fuel IH]; intros tex r Hf; simpl.
  - replace (l - r) with 0 by lia. simpl. rewrite app_nil_r. f_equal. lia.
  - destruct (Nat.ltb_spec r l) as [Hlt|Hge].
    + rewrite IH by lia. replace (l - r) with (S (l - (r + 1))) by lia.
      simpl. rewrite <- app_assoc. simpl. f_equal. lia.
    + replace (l - r) with 0 by lia. simpl. rewrite app_nil_r. f_equal. lia.
Qed.

Lemma remove_stray_braces_spec tex :
  remove_stray_braces tex =
    replicate (count "}" tex - count "{" tex) "{"%char
    ++ tex ++ replicate (count "{" tex - count "}" tex) "}"%char.
Proof.
  unfold remove_stray_braces.
  rewrite prepend_lefts_spec by lia.
  rewrite append_rights_spec by lia.
  rewrite <- app_assoc. do 3 f_equal. lia.
Qed.

Lemma count_replicate_same c n : count c (replicate n c) = n.
Proof.
  induction n as [|n IH]; simpl; [done|].
  by rewrite bool_decide_eq_true_2, IH.
Qed.

Lemma count_replicate_other c d n : d ≠ c → count c (replicate n d) = 0.
Proof.
  intros Hne. induction n as [|n IH]; simpl; [done|].
  by rewrite bool_decide_eq_false_2, IH.
Qed.

Lemma brace_excess_remove_stray_braces tex :
  brace_excess (remove_stray_braces tex) = 0%Z.
Proof.
  unfold brace_excess. rewrite remove_stray_braces_spec, !count_app.
  rewrite !count_replicate_same, !count_replicate_other by done. lia.
Qed.

Lemma brace_excess_add_filler u : brace_excess (add_filler u) = brace_excess u.
Proof.
  unfold add_filler, brace_excess. destruct (should_add_filler u); [|done].
  rewrite !count_app. simpl. lia.
Qed.

Lemma brace_excess_replace_substack u :
  brace_excess (replace_substack u) = brace_excess u.
Proof. unfold replace_substack. case_bool_decide as E; [by subst u | done]. Qed.

Lemma brace_excess_replace_empty u :
  brace_excess (replace_empty u) = brace_excess u.
Proof. unfold replace_empty. case_bool_decide as E; [by subst u | done]. Qed.

Lemma brace_excess_replace s old new :
  count "{" old = count "{" new → count "}" old = count "}" new →
  brace_excess (replace s old new) = brace_excess s.
Proof. intros Hl Hr. unfold brace_excess. by rewrite !count_replace. Qed.

Lemma brace_excess_guard_line_break u :
  brace_excess (guard_line_break u) = brace_excess u.
Proof.
  unfold guard_line_break. destruct (startswith u (py "\\")); [|done].
  by apply brace_excess_replace.
Qed.

Lemma brace_excess_balance_left_right u :
  brace_excess (balance_left_right u) = brace_excess u.
Proof.
  unfold balance_left_right. case_bool_decide; [|done].
  by rewrite !brace_excess_replace.
Qed.

Lemma check_context_cases u context :
  check_context u context =
    if xorb (contains (py "\begin{" ++ context ++ py "}") u)
            (contains (py "\end{" ++ context ++ py "}") u)
    then [] else u.
Proof. done. Qed.

Lemma modify_special_strings_unfold tex :
  modify_special_strings tex =
    let u := special_rewrites tex in
    if xorb (contains (py "\begin{array}") u) (contains (py "\end{array}") u)
    then [] else u.
Proof. done. Qed.

Lemma get_modified_expression_unfold alignment t :
  get_modified_expression alignment t =
    modify_special_strings (strip (alignment ++ py " " ++ t)).
Proof. reflexivity. Qed.

Lemma special_rewrites_nonempty tex : special_rewrites tex ≠ [].
Proof.
  unfold special_rewrites.
  set (v := replace_substack _).
  assert (Hv : replace_empty v ≠ []).
  { unfold replace_empty. case_bool_decide; done. }
  assert (Hg : guard_line_break (replace_empty v) ≠ []).
  { unfold guard_line_break. destruct (startswith _ _); [|done].
    by apply replace_nonempty. }
  unfold balance_left_right. case_bool_decide; [|done].
  apply replace_nonempty; [done|]. by apply replace_nonempty.
Qed.

(** C3, as the code has it: the rewrites up to the [\left]/[\right]
    repair always leave a non-empty string; the last loop then empties it
    exactly when one of [\begin{array}] and [\end{array}] occurs in it
    without the other, and returns it unchanged otherwise. *)
Theorem normalize_empty_only_for_half_array alignment t :
  let u := special_rewrites (strip (alignment ++ py " " ++ t)) in
  u ≠ [] ∧
  get_modified_expression alignment t =
    if xorb (contains (py "\begin{array}") u) (contains (py "\end{array}") u)
    then [] else u.
Proof.
  intros u. split; [apply special_rewrites_nonempty|].
  rewrite get_modified_expression_unfold. apply modify_special_strings_unfold.
Qed.

(** C3 as stated fails: a lone [\begin{array}] is normalised to the empty
    string. *)
Lemma normalize_nonempty_fails :
  get_modified_expression [] (py "\begin{array}") = [].
Proof. vm_compute. reflexivity. Qed.

Lemma brace_excess_check_context u context :
  brace_excess (check_context u context) =
    if xorb (contains (py "\begin{" ++ context ++ py "}") u)
            (contains (py "\end{" ++ context ++ py "}") u)
    then 0%Z else brace_excess u.
Proof. rewrite check_context_cases. destruct (xorb _ _); reflexivity. Qed.

Lemma brace_excess_special_rewrites tex : brace_excess (special_rewrites tex) = 0%Z.
Proof.
  unfold special_rewrites.
  rewrite brace_excess_balance_left_right, brace_excess_guard_line_break,
    brace_excess_replace_empty, brace_excess_replace_substack,
    brace_excess_add_filler.
  apply brace_excess_remove_stray_braces.
Qed.

Lemma brace_excess_modify_special_strings tex :
  brace_excess (modify_special_strings tex) = 0%Z.
Proof.
  rewrite modify_special_strings_unfold. cbv zeta.
  destruct (xorb _ _); [reflexivity | apply brace_excess_special_rewrites].
Qed.

Lemma count_braces_get_modified_expression alignment t :
  count "{" (get_modified_expression alignment t) =
  count "}" (get_modified_expression alignment t).
Proof.
  rewrite get_modified_expression_unfold.
  pose proof (brace_excess_modify_special_strings
                (strip (alignment ++ py " " ++ t))) as H.
  revert H. generalize (modify_special_strings (strip (alignment ++ py " " ++ t))).
  intros v H. unfold brace_excess in H. lia.
Qed.

(** C4: [remove_stray_braces] pads ["{"] in front while the right braces
    are more and ["}"] behind while the left braces are more, which
    balances the string; the filler, the two total replacements, the
    line-break guard and the delimiter downgrade keep the excess of ["{"]
    over ["}"]; the environment check returns its argument or the empty
    string; so the normalised string has as many ["{"] as ["}"]. *)
Theorem normalize_brace_balance :
  (∀ tex,
     remove_stray_braces tex =
       replicate (count "}" tex - count "{" tex) "{"%char
       ++ tex ++ replicate (count "{" tex - count "}" tex) "}"%char) ∧
  (∀ tex, brace_excess (remove_stray_braces tex) = 0%Z) ∧
  (∀ u, brace_excess (add_filler u) = brace_excess u) ∧
  (∀ u, brace_excess (replace_substack u) = brace_excess u) ∧
  (∀ u, brace_excess (replace_empty u) = brace_excess u) ∧
  (∀ u, brace_excess (guard_line_break u) = brace_excess u) ∧
  (∀ u, brace_excess (balance_left_right u) = brace_excess u) ∧
  (∀ u context,
     brace_excess (check_context u context) =
       if xorb (contains (py "\begin{" ++ context ++ py "}") u)
               (contains (py "\end{" ++ context ++ py "}") u)
       then 0%Z else brace_excess u) ∧
  (∀ alignment t,
     count "{" (get_modified_expression alignment t) =
     count "}" (get_modified_expression alignment t)).
Proof.
  split_and!.
  - exact remove_stray_braces_spec.
  - exact brace_excess_remove_stray_braces.
  - exact brace_excess_add_filler.
  - exact brace_excess_replace_substack.
  - exact brace_excess_replace_empty.
  - exact brace_excess_guard_line_break.
  - exact brace_excess_balance_left_right.
  - exact brace_excess_check_context.
  - exact count_braces_get_modified_expression.
Qed.

End Normaliser.

(** ** The assembler *)

Section Assembler.

Context {A Pos : Type}.
Variable svg_submobjects : str → str → list A.
Variable right_edge : A → Pos.

Implicit Types (flat : list A) (ty s : str) (strings : list str)
  (acc gs : list (Part A Pos)) (i c : nat).

Abbreviation num := (num_submobs_of svg_submobjects).
Abbreviation step := (break_up_step svg_submobjects right_edge).
Abbreviation loop := (break_up_loop svg_submobjects right_edge).
Abbreviation total := (total_submobs svg_submobjects).

Lemma getitem_clamped flat i :
  flat ≠ [] →
  ∃ a, flat !! (i `min` (length flat - 1)) = Some a ∧
       getitem flat (Z.min (Z.of_nat i) (Z.of_nat (length flat) - 1)) = Ok a.
Proof.
  intros Hne. assert (0 < length flat) by (destruct flat; [done | simpl; lia]).
  destruct (lookup_lt_is_Some_2 flat (i `min` (length flat - 1))) as [a Ha];
    [lia|].
  exists a. split; [done|]. unfold getitem.
  replace (Z.min (Z.of_nat i) (Z.of_nat (length flat) - 1))
    with (Z.of_nat (i `min` (length flat - 1))) by lia.
  destruct (Z.ltb_spec (Z.of_nat (i `min` (length flat - 1))) 0); [lia|].
  destruct (Z.leb_spec 0 (Z.of_nat (i `min` (length flat - 1)))); [|lia].
  destruct (Z.ltb_spec (Z.of_nat (i `min` (length flat - 1)))
              (Z.of_nat (length flat))); [|lia].
  simpl. by rewrite Nat2Z.id, Ha.
Qed.

Lemma getitem_nil i :
  getitem (@nil A) (Z.min (Z.of_nat i) (Z.of_nat (length (@nil A)) - 1))
  = Raise IndexError.
Proof.
  replace (Z.min (Z.of_nat i) (Z.of_nat (length (@nil A)) - 1)) with (-1)%Z
    by (simpl; lia).
  reflexivity.
Qed.

Lemma step_Ok flat ty acc i s acc' i' :
  step flat ty (acc, i) s = Ok (acc', i') →
  i' = i + num ty s ∧ ∃ g, acc' = acc ++ [g] ∧ part_at svg_submobjects right_edge flat ty i s g.
Proof.
  unfold break_up_step, part_at.
  destruct (Nat.eqb_spec (num ty s) 0) as [Hc|Hc].
  - destruct flat as [|a0 flat'] eqn:Ef.
    + rewrite getitem_nil. done.
    + destruct (getitem_clamped (a0 :: flat') i) as (a & Ha & ->); [done|].
      simpl. intros [= <- <-]. split; [done|]. eexists. split; [done|].
      simpl. split_and!; [done | done |]. left. eauto.
  - simpl. intros [= <- <-]. split; [done|]. eexists. split; [done|].
    simpl. split_and!; [done | done |]. right. split; [lia | done].
Qed.

Lemma step_total flat ty acc i s :
  flat ≠ [] → ∃ st, step flat ty (acc, i) s = Ok st.
Proof.
  intros Hne. unfold break_up_step.
  destruct (num ty s =? 0); simpl; [|eauto].
  destruct (getitem_clamped flat i Hne) as (a & _ & ->). simpl. eauto.
Qed.

Lemma total_cons ty s strings :
  total ty (s :: strings) = num ty s + total ty strings.
Proof. reflexivity. Qed.

Lemma loop_cons flat ty s strings st :
  loop flat ty (s :: strings) st
  = bind (step flat ty st s) (loop flat ty strings).
Proof. reflexivity. Qed.

Lemma loop_Ok flat ty strings acc i acc' i' :
  loop flat ty strings (acc, i) = Ok (acc', i') →
  i' = i + total ty strings ∧
  ∃ gs, acc' = acc ++ gs ∧
        parts_from svg_submobjects right_edge flat ty i strings gs.
Proof.
  revert acc i. induction strings as [|s strings IH]; intros acc i.
  - intros [= <- <-]. split; [unfold total_submobs; simpl; lia|].
    exists []. by rewrite app_nil_r.
  - rewrite loop_cons.
    destruct (step flat ty (acc, i) s) as [[acc1 i1]|e] eqn:Es; [|done].
    simpl. intros Hl. apply step_Ok in Es as (-> & g & -> & Hg).
    apply IH in Hl as (-> & gs & -> & Hgs). split.
    + rewrite total_cons. lia.
    + exists (g :: gs). by rewrite <- app_assoc.
Qed.

Lemma loop_total flat ty strings acc i :
  flat ≠ [] → ∃ st, loop flat ty strings (acc, i) = Ok st.
Proof.
  intros Hne. revert acc i.
  induction strings as [|s strings IH]; intros acc i; [simpl; eauto|].
  rewrite loop_cons.
  destruct (step_total flat ty acc i s Hne) as [[acc1 i1] ->]. simpl.
  apply IH.
Qed.

Lemma break_up_Ok (self : TexMobject A Pos) flat tree :
  break_up_by_substrings svg_submobjects right_edge self flat = Ok tree →
  parts_from svg_submobjects right_edge flat (type self) 0 (tex_strings self) tree.
Proof.
  unfold break_up_by_substrings.
  destruct (loop flat _ _ _) as [[acc' i']|e] eqn:El; [|done].
  simpl. intros [= <-]. by apply loop_Ok in El as (_ & gs & -> & Hgs).
Qed.

Lemma break_up_total (self : TexMobject A Pos) flat :
  flat ≠ [] →
  ∃ tree, break_up_by_substrings svg_submobjects right_edge self flat = Ok tree.
Proof.
  intros Hne. unfold break_up_by_substrings.
  destruct (loop_total flat (type self) (tex_strings self) [] 0 Hne)
    as [st ->].
  simpl. eauto.
Qed.

(** *** What [parts_from] says of the parts *)

Lemma parts_from_length flat ty i strings gs :
  parts_from svg_submobjects right_edge flat ty i strings gs →
  length gs = length strings.
Proof.
  revert i gs. induction strings as [|s strings IH]; intros i [|g gs]; simpl;
    try done.
  intros [_ H]. f_equal. by eapply IH.
Qed.

Lemma parts_from_tex_strings flat ty i strings gs :
  parts_from svg_submobjects right_edge flat ty i strings gs →
  tex_string <$> gs = strings.
Proof.
  revert i gs. induction strings as [|s strings IH]; intros i [|g gs]; simpl;
    try done.
  intros [(Hs & _) H]. f_equal; [done | by eapply IH].
Qed.

Lemma parts_from_lookup flat ty i strings gs k s :
  parts_from svg_submobjects right_edge flat ty i strings gs →
  strings !! k = Some s →
  ∃ g, gs !! k = Some g ∧
       part_at svg_submobjects right_edge flat ty
         (i + total ty (take k strings)) s g.
Proof.
  revert i gs k. induction strings as [|s0 strings IH]; intros i [|g gs] k;
    simpl; try done.
  intros [Hg H] Hk. destruct k as [|k]; simpl in *.
  - injection Hk as ->. exists g. split; [done|].
    change (total ty []) with 0. by rewrite Nat.add_0_r.
  - destruct (IH _ _ _ H Hk) as (g' & Hg' & Hp). exists g'. split; [done|].
    by rewrite total_cons, Nat.add_assoc.
Qed.

Lemma glyphs_part_at flat ty i s g :
  part_at svg_submobjects right_edge flat ty i s g →
  glyphs g = slice flat i (i + num ty s).
Proof.
  intros (_ & _ & [(Hc & a & _ & Hs)|(Hc & Hs)]); unfold glyphs; rewrite Hs.
  - rewrite Hc. unfold slice. by replace (i + 0 - i) with 0 by lia.
  - generalize (slice flat i (i + num ty s)). intros l.
    induction l as [|x l IH]; [done | simpl; f_equal; exact IH].
Qed.

Lemma slice_app flat i c c' :
  slice flat i (i + c) ++ slice flat (i + c) (i + c + c')
  = slice flat i (i + (c + c')).
Proof.
  unfold slice.
  replace (i + c - i) with c by lia.
  replace (i + c + c' - (i + c)) with c' by lia.
  replace (i + (c + c') - i) with (c + c') by lia.
  rewrite <- (drop_drop flat c i). apply take_take_drop.
Qed.

Lemma parts_from_glyphs flat ty i strings gs :
  parts_from svg_submobjects right_edge flat ty i strings gs →
  concat (glyphs <$> gs) = slice flat i (i + total ty strings).
Proof.
  revert i gs. induction strings as [|s strings IH]; intros i [|g gs] Hp;
    try done.
  - unfold slice. change (total ty []) with 0.
    by replace (i + 0 - i) with 0 by lia.
  - destruct Hp as [Hg H]. rewrite fmap_cons, concat_cons.
    rewrite (IH _ _ H), (glyphs_part_at _ _ _ _ _ Hg).
    by rewrite total_cons, slice_app.
Qed.

Lemma slice_0 flat n : slice flat 0 (0 + n) = take n flat.
Proof. unfold slice. simpl. by rewrite Nat.sub_0_r. Qed.

Lemma length_slice flat i c : i + c ≤ length flat → length (slice flat i (i + c)) = c.
Proof.
  intros H. unfold slice. rewrite length_take, length_drop. lia.
Qed.

Lemma total_app ty l1 l2 : total ty (l1 ++ l2) = total ty l1 + total ty l2.
Proof.
  induction l1 as [|s l1 IH]; [done|].
  change ((s :: l1) ++ l2) with (s :: (l1 ++ l2)).
  rewrite !total_cons, IH. lia.
Qed.

Lemma total_lookup_le ty strings k s :
  strings !! k = Some s →
  total ty (take k strings) + num ty s ≤ total ty strings.
Proof.
  intros Hk. rewrite <- (take_drop_middle strings k s Hk) at 2.
  rewrite total_app, total_cons. lia.
Qed.

(** The glyph count of a part, none for a part that renders nothing. *)
Lemma parts_from_sum flat ty i strings gs :
  parts_from svg_submobjects right_edge flat ty i strings gs →
  i + total ty strings ≤ length flat →
  sum_list ((λ g, if num ty (tex_string g) =? 0 then 0
                  else length (submobjects g)) <$> gs)
  = total ty strings.
Proof.
  revert i gs. induction strings as [|s strings IH]; intros i [|g gs] Hp;
    try done.
  destruct Hp as [Hg H]. rewrite total_cons. intros Hle.
  rewrite fmap_cons. change (sum_list (?x :: ?l)) with (x + sum_list l).
  rewrite (IH _ _ H) by lia. f_equal.
  destruct Hg as (-> & _ & [(Hc & _)|(Hc & Hs)]).
  - by rewrite Hc.
  - destruct (Nat.eqb_spec (num ty s) 0); [lia|].
    rewrite Hs, length_fmap. apply length_slice. lia.
Qed.

Lemma part_at_step flat ty i s g acc :
  part_at svg_submobjects right_edge flat ty i s g →
  step flat ty (acc, i) s = Ok (acc ++ [g], i + num ty s).
Proof.
  destruct g as [t subs col]. unfold part_at. simpl.
  intros (-> & -> & [(Hc & a & Ha & ->)|(Hc & ->)]); unfold break_up_step.
  - rewrite Hc. simpl.
    destruct (getitem_clamped flat i) as (a' & Ha' & ->).
    { intros ->. done. }
    simpl. rewrite Ha in Ha'. by injection Ha' as <-.
  - destruct (Nat.eqb_spec (num ty s) 0); [lia | done].
Qed.

Lemma loop_nil_raises ty strings acc i :
  (∃ s, s ∈ strings ∧ num ty s = 0) →
  loop [] ty strings (acc, i) = Raise IndexError.
Proof.
  revert acc i. induction strings as [|s0 strings IH]; intros acc i (s & Hin & Hs).
  - by apply elem_of_nil in Hin.
  - rewrite loop_cons. unfold break_up_step.
    destruct (Nat.eqb_spec (num ty s0) 0) as [H0|H0].
    + by rewrite getitem_nil.
    + simpl. apply IH. exists s. split; [|done].
      apply elem_of_cons in Hin as [->|Hin]; [done | done].
Qed.

(** *** The claims on the assembler *)

(** C1, as the code has it: the assembler compares nothing.  On a
    non-empty flat render it returns a tree whatever the counts are: one
    part for each substring, in order, whose glyphs are, put end to end,
    the first leaves of the flat render, as many as the counts sum to and
    no more than there are. *)
Theorem assembler_returns_whatever_the_counts (self : TexMobject A Pos) flat :
  flat ≠ [] →
  ∃ tree,
    break_up_by_substrings svg_submobjects right_edge self flat = Ok tree ∧
    tex_string <$> tree = tex_strings self ∧
    concat (glyphs <$> tree)
    = take (total (type self) (tex_strings self)) flat.
Proof.
  intros Hne. destruct (break_up_total self flat Hne) as [tree Ht].
  exists tree. split; [done|]. apply break_up_Ok in Ht. split.
  - by eapply parts_from_tex_strings.
  - rewrite (parts_from_glyphs _ _ _ _ _ Ht). apply slice_0.
Qed.

(** C2, as the code has it: in a tree the assembler returns, the part of
    a substring that renders to nothing holds one point, at the right
    edge of the flat leaf under the cursor (the last flat leaf once the
    cursor is past the end), and the cursor stays; the part of a
    substring with count [c > 0] holds the slice [flat[i : i+c]] and the
    cursor moves on by [c]. *)
Theorem assembler_part_of_substring (self : TexMobject A Pos) flat tree
    pre s post :
  tex_strings self = pre ++ s :: post →
  break_up_by_substrings svg_submobjects right_edge self flat = Ok tree →
  let i := total (type self) pre in
  let c := num (type self) s in
  ∃ g,
    tree !! length pre = Some g ∧ tex_string g = s ∧
    (c = 0 →
     ∃ a, flat !! (i `min` (length flat - 1)) = Some a ∧
          submobjects g = [VectorizedPoint (right_edge a)]) ∧
    (0 < c → submobjects g = TexSymbol <$> slice flat i (i + c)) ∧
    (∀ acc, step flat (type self) (acc, i) s = Ok (acc ++ [g], i + c)).
Proof.
  intros Hs Ht i c. apply break_up_Ok in Ht. rewrite Hs in Ht.
  destruct (parts_from_lookup flat (type self) 0 (pre ++ s :: post) tree
              (length pre) s Ht) as (g & Hg & Hp).
  { by rewrite list_lookup_middle. }
  rewrite take_app_length in Hp. simpl in Hp. fold i in Hp.
  exists g. split; [done|].
  pose proof (λ acc, part_at_step _ _ _ _ _ acc Hp) as Hstep.
  destruct Hp as (Htex & _ & Hcases). split; [done|]. split_and!.
  - intros Hc. destruct Hcases as [(_ & Ha)|(Hpos & _)]; [done|].
    fold c in Hpos. lia.
  - intros Hc. destruct Hcases as [(Hz & _)|(_ & Hsl)]; [|done].
    fold c in Hz. lia.
  - intros acc. apply Hstep.
Qed.

(** C5: when the counts sum to the length of the flat render, the glyphs
    of the parts of a returned tree, put end to end, are the flat render;
    the glyph counts of the parts that render to something sum to its
    length; each such part holds exactly its slice, of the length of its
    count, and each part that renders to nothing holds one point and no
    glyph. *)
Theorem assembler_partition (self : TexMobject A Pos) flat tree :
  break_up_by_substrings svg_submobjects right_edge self flat = Ok tree →
  total (type self) (tex_strings self) = length flat →
  concat (glyphs <$> tree) = flat ∧
  sum_list ((λ g, if num (type self) (tex_string g) =? 0 then 0
                  else length (submobjects g)) <$> tree)
  = length flat ∧
  ∀ k g, tree !! k = Some g →
    let i := total (type self) (take k (tex_strings self)) in
    let c := num (type self) (tex_string g) in
    (c = 0 → glyphs g = [] ∧ ∃ p, submobjects g = [VectorizedPoint p]) ∧
    (0 < c →
     submobjects g = TexSymbol <$> glyphs g ∧
     glyphs g = slice flat i (i + c) ∧ length (glyphs g) = c).
Proof.
  intros Ht Hsum. apply break_up_Ok in Ht. split_and!.
  - rewrite (parts_from_glyphs _ _ _ _ _ Ht), slice_0, Hsum.
    by rewrite firstn_all.
  - rewrite (parts_from_sum _ _ _ _ _ Ht); [done | lia].
  - intros k g Hk i c.
    assert (Hs : tex_strings self !! k = Some (tex_string g)).
    { rewrite <- (parts_from_tex_strings _ _ _ _ _ Ht), list_lookup_fmap.
      by rewrite Hk. }
    destruct (parts_from_lookup _ _ _ _ _ _ _ Ht Hs) as (g' & Hg' & Hp).
    rewrite Hk in Hg'. injection Hg' as <-. simpl in Hp. fold i in Hp.
    pose proof (glyphs_part_at _ _ _ _ _ Hp) as Hgl. fold c in Hgl.
    pose proof (total_lookup_le (type self) _ _ _ Hs) as Hle.
    fold i c in Hle.
    destruct Hp as (_ & _ & [(Hz & a & _ & Hsub)|(Hpos & Hsub)]);
      fold c in Hz || fold c in Hpos; fold c in Hsub.
    + split; [|lia]. intros _. split; [|eauto].
      rewrite Hgl, Hz. unfold slice. by replace (i + 0 - i) with 0 by lia.
    + split; [lia|]. intros _. rewrite Hgl. split_and!; [done | done |].
      apply length_slice. lia.
Qed.

(** C6: the parts of a returned tree carry the substrings given to the
    assembler, in the order given. *)
Theorem assembler_keeps_order (self : TexMobject A Pos) flat tree :
  break_up_by_substrings svg_submobjects right_edge self flat = Ok tree →
  tex_string <$> tree = tex_strings self.
Proof. intros Ht. apply break_up_Ok in Ht. by eapply parts_from_tex_strings. Qed.

(** C10: on an empty flat render, a substring that renders to nothing
    makes the assembler index the empty list ([self.submobjects[-1]]) and
    raise [IndexError]; no tree is returned. *)
Theorem assembler_empty_flat_raises (self : TexMobject A Pos) :
  (∃ s, s ∈ tex_strings self ∧ num (type self) s = 0) →
  break_up_by_substrings svg_submobjects right_edge self []
  = Raise IndexError.
Proof.
  intros H. unfold break_up_by_substrings.
  by rewrite (loop_nil_raises _ _ [] 0 H).
Qed.

End Assembler.

(** *** The assembler on the sample renders *)

(** C1 as stated fails: the renders of ["x"] and ["y"] hold three shapes,
    the render of ["x y"] two, and the assembler returns a tree of two
    one-glyph parts. *)
Lemma count_mismatch_not_raised :
  total_submobs sample_svg (type sample_xy) (tex_strings sample_xy) = 3 ∧
  length (sample_flat sample_xy) = 2 ∧
  break_up_by_substrings sample_svg id sample_xy (sample_flat sample_xy)
  = Ok [ {| tex_string := py "x"; submobjects := [TexSymbol 30];
            color := None |};
         {| tex_string := py "y"; submobjects := [TexSymbol 40];
            color := None |} ].
Proof. split_and!; vm_compute; reflexivity. Qed.

Lemma assembler_returns_whatever_the_counts_witness :
  sample_flat sample_xy ≠ [] ∧
  ∃ tree,
    break_up_by_substrings sample_svg id sample_xy (sample_flat sample_xy)
    = Ok tree ∧
    tex_string <$> tree = tex_strings sample_xy ∧
    concat (glyphs <$> tree)
    = take (total_submobs sample_svg (type sample_xy) (tex_strings sample_xy))
        (sample_flat sample_xy).
Proof.
  split; [vm_compute; discriminate|].
  apply (assembler_returns_whatever_the_counts sample_svg id sample_xy).
  vm_compute; discriminate.
Defined.

(** C2 as stated fails: between ["a"] and ["b"], the part of ["{}"] holds
    a point at the right edge of the leaf of ["b"], not where the part of
    ["a"] before it is. *)
Lemma placeholder_not_at_preceding_group :
  num_submobs_of sample_svg (type sample_abc) (py "{}") = 0 ∧
  break_up_by_substrings sample_svg id sample_abc (sample_flat sample_abc)
  = Ok sample_abc_tree ∧
  submobjects <$> sample_abc_tree !! 1 = Some [VectorizedPoint 20] ∧
  spec_placeholder_position id (sample_flat sample_abc) (sample_abc_tree !! 0)
  = Some 10 ∧
  submobjects <$> sample_abc_tree !! 1
  ≠ (λ p, [VectorizedPoint p])
      <$> spec_placeholder_position id (sample_flat sample_abc)
            (sample_abc_tree !! 0).
Proof. split_and!; vm_compute; (reflexivity || discriminate). Qed.

Lemma assembler_part_of_substring_witness :
  tex_strings sample_abc = [py "a"] ++ py "{}" :: [py "b"] ∧
  break_up_by_substrings sample_svg id sample_abc (sample_flat sample_abc)
  = Ok sample_abc_tree ∧
  ∃ g,
    sample_abc_tree !! 1 = Some g ∧ tex_string g = py "{}" ∧
    (num_submobs_of sample_svg (type sample_abc) (py "{}") = 0 →
     ∃ a, sample_flat sample_abc
            !! (total_submobs sample_svg (type sample_abc) [py "a"]
                `min` (length (sample_flat sample_abc) - 1)) = Some a ∧
          submobjects g = [VectorizedPoint (id a)]) ∧
    (0 < num_submobs_of sample_svg (type sample_abc) (py "{}") →
     submobjects g
     = TexSymbol
         <$> slice (sample_flat sample_abc)
               (total_submobs sample_svg (type sample_abc) [py "a"])
               (total_submobs sample_svg (type sample_abc) [py "a"]
                + num_submobs_of sample_svg (type sample_abc) (py "{}"))) ∧
    (∀ acc,
       break_up_step sample_svg id (sample_flat sample_abc) (type sample_abc)
         (acc, total_submobs sample_svg (type sample_abc) [py "a"]) (py "{}")
       = Ok (acc ++ [g],
             total_submobs sample_svg (type sample_abc) [py "a"]
             + num_submobs_of sample_svg (type sample_abc) (py "{}"))).
Proof.
  split; [reflexivity|]. split; [vm_compute; reflexivity|].
  apply (assembler_part_of_substring sample_svg id sample_abc
           (sample_flat sample_abc) sample_abc_tree [py "a"] (py "{}") [py "b"]).
  - reflexivity.
  - vm_compute; reflexivity.
Defined.

Lemma assembler_partition_witness :
  break_up_by_substrings sample_svg id sample_abc (sample_flat sample_abc)
  = Ok sample_abc_tree ∧
  total_submobs sample_svg (type sample_abc) (tex_strings sample_abc)
  = length (sample_flat sample_abc) ∧
  concat (glyphs <$> sample_abc_tree) = sample_flat sample_abc.
Proof.
  assert (H1 : break_up_by_substrings sample_svg id sample_abc
                 (sample_flat sample_abc) = Ok sample_abc_tree)
    by (vm_compute; reflexivity).
  assert (H2 : total_submobs sample_svg (type sample_abc)
                 (tex_strings sample_abc) = length (sample_flat sample_abc))
    by (vm_compute; reflexivity).
  split; [exact H1|]. split; [exact H2|].
  exact (proj1 (assembler_partition sample_svg id sample_abc
                  (sample_flat sample_abc) sample_abc_tree H1 H2)).
Defined.

Lemma assembler_keeps_order_witness :
  break_up_by_substrings sample_svg id sample_abc (sample_flat sample_abc)
  = Ok sample_abc_tree ∧
  tex_string <$> sample_abc_tree = tex_strings sample_abc.
Proof.
  assert (H1 : break_up_by_substrings sample_svg id sample_abc
                 (sample_flat sample_abc) = Ok sample_abc_tree)
    by (vm_compute; reflexivity).
  split; [exact H1|].
  exact (assembler_keeps_order sample_svg id sample_abc
           (sample_flat sample_abc) sample_abc_tree H1).
Defined.

Lemma assembler_empty_flat_raises_witness :
  (∃ s, s ∈ tex_strings sample_empty ∧
        num_submobs_of sample_svg (type sample_empty) s = 0) ∧
  sample_flat sample_empty = [] ∧
  break_up_by_substrings sample_svg id sample_empty (sample_flat sample_empty)
  = Raise IndexError.
Proof.
  assert (H : ∃ s, s ∈ tex_strings sample_empty ∧
                   num_submobs_of sample_svg (type sample_empty) s = 0).
  { exists (py "{}"). split; [apply list_elem_of_here | reflexivity]. }
  split; [exact H|]. split; [reflexivity|].
  exact (assembler_empty_flat_raises sample_svg id sample_empty H).
Defined.

(** ** The segmenter *)

Section Segmenter.

Context {A Pos : Type}.
Variable split_string_list_to_isolate_substrings :
  list str → list TexKey → list str.

Lemma lstrip_spec s :
  ∃ l, s = l ++ lstrip s ∧ forallb isspace l = true ∧
       from_option isspace false (head (lstrip s)) = false.
Proof.
  induction s as [|c s (l & Hl & Hsp & Hhd)]; simpl.
  - by exists [].
  - destruct (isspace c) eqn:Ec.
    + exists (c :: l). simpl. rewrite Ec, Hsp. split; [by f_equal | done].
    + exists []. simpl. by rewrite Ec.
Qed.

Lemma forallb_rev {T} (f : T → bool) l : forallb f (rev l) = forallb f l.
Proof.
  induction l as [|x l IH]; simpl; [done|].
  rewrite forallb_app, IH. simpl. destruct (f x), (forallb f l); done.
Qed.

Lemma head_rev {T} (l : list T) : head (rev l) = last l.
Proof.
  induction l as [|x l IH]; [done|]. simpl rev.
  rewrite head_app, IH, last_cons. by destruct (last l).
Qed.

Lemma rstrip_spec s :
  ∃ r, s = rstrip s ++ r ∧ forallb isspace r = true ∧
       from_option isspace false (last (rstrip s)) = false.
Proof.
  unfold rstrip. destruct (lstrip_spec (rev s)) as (l & Hl & Hsp & Hhd).
  exists (rev l). split_and!.
  - rewrite <- rev_app_distr, <- Hl. by rewrite rev_involutive.
  - by rewrite forallb_rev.
  - by rewrite <- head_rev, rev_involutive.
Qed.

(** [s.strip()] is [s] without the white space at its two ends. *)
Lemma strip_spec s :
  ∃ l r, s = l ++ strip s ++ r ∧
         forallb isspace l = true ∧ forallb isspace r = true ∧
         from_option isspace false (head (strip s)) = false ∧
         from_option isspace false (last (strip s)) = false.
Proof.
  unfold strip. destruct (lstrip_spec s) as (l & Hl & Hlsp & Hhd).
  destruct (rstrip_spec (lstrip s)) as (r & Hr & Hrsp & Hlast).
  exists l, r. split_and!; try done.
  - by rewrite <- Hr.
  - destruct (rstrip (lstrip s)) as [|c u] eqn:E; [done|].
    rewrite Hr in Hhd. exact Hhd.
Qed.

Lemma filter_bool_decide {T} (P : T → Prop) `{!∀ x, Decision (P x)} (l : list T) :
  List.filter (λ x, bool_decide (P x)) l = filter P l.
Proof.
  induction l as [|x l IH]; simpl; [done|].
  rewrite filter_cons. rewrite IH. by destruct (decide (P x)) as [HP|HP];
    [rewrite bool_decide_eq_true_2 | rewrite bool_decide_eq_false_2].
Qed.

(** C7: the segmenter returns the output of the splitter, each element
    stripped of the white space at its ends exactly when [arg_separator]
    is one space, with the elements that are then empty left out and the
    others in their order. *)
Theorem segmenter_strips_and_filters (self : TexMobject A Pos)
    (tex_strings : list str) :
  let split_list :=
    split_string_list_to_isolate_substrings tex_strings
      (substrings_to_isolate self ++ (tex_to_color_map self).*1) in
  break_up_tex_strings split_string_list_to_isolate_substrings self tex_strings
  = filter (λ s, s ≠ [])
      ((if bool_decide (arg_separator self = py " ") then strip else id)
       <$> split_list) ∧
  ∀ s, ∃ l r, s = l ++ strip s ++ r ∧
              forallb isspace l = true ∧ forallb isspace r = true ∧
              from_option isspace false (head (strip s)) = false ∧
              from_option isspace false (last (strip s)) = false.
Proof.
  intros split_list. split; [|apply strip_spec].
  unfold break_up_tex_strings. fold split_list.
  rewrite filter_bool_decide. f_equal.
  case_bool_decide; [done|]. by rewrite list_fmap_id.
Qed.

End Segmenter.

(** ** Queries *)

Section Queries.

Context {A Pos : Type}.

Implicit Types (self : TexMobject A Pos) (m : Part A Pos) (tex : str).

Lemma test_spec substring case_sensitive tex1 tex2 :
  test substring case_sensitive tex1 tex2 = true
  ↔ tex_matches substring case_sensitive tex1 tex2.
Proof.
  unfold test, tex_matches.
  destruct case_sensitive, substring; simpl;
    first [apply contains_spec | apply bool_decide_eq_true].
Qed.

#[local] Instance tex_matches_dec substring case_sensitive tex1 tex2 :
  Decision (tex_matches substring case_sensitive tex1 tex2).
Proof.
  destruct (test substring case_sensitive tex1 tex2) eqn:E.
  - left. by apply test_spec.
  - right. intros H. apply test_spec in H. congruence.
Defined.

Lemma get_parts_by_tex_filter self tex substring case_sensitive :
  get_parts_by_tex self tex substring case_sensitive
  = filter (λ m, tex_matches substring case_sensitive tex (tex_string m))
      (parts self).
Proof.
  unfold get_parts_by_tex. generalize (parts self). intros l.
  induction l as [|m l IH]; simpl; [done|].
  rewrite filter_cons, IH. unfold get_tex_string.
  destruct (decide _) as [H|H].
  - apply test_spec in H. by rewrite H.
  - destruct (test _ _ _ _) eqn:E; [|done]. by apply test_spec in E.
Qed.

(** C8: [get_parts_by_tex] keeps, in the order of the tree, exactly the
    parts whose tag answers the query; when none does, the result is
    empty, and [get_part_by_tex], which gives the first part found, gives
    [None]. *)
Theorem get_parts_by_tex_spec self tex substring case_sensitive :
  get_parts_by_tex self tex substring case_sensitive
  = filter (λ m, tex_matches substring case_sensitive tex (tex_string m))
      (parts self) ∧
  get_part_by_tex self tex substring case_sensitive
  = head (get_parts_by_tex self tex substring case_sensitive) ∧
  ((∀ m, m ∈ parts self →
         ¬ tex_matches substring case_sensitive tex (tex_string m)) →
   get_parts_by_tex self tex substring case_sensitive = [] ∧
   get_part_by_tex self tex substring case_sensitive = None).
Proof.
  split_and!.
  - apply get_parts_by_tex_filter.
  - unfold get_part_by_tex. by destruct (get_parts_by_tex _ _ _ _).
  - intros Hnone.
    assert (E : get_parts_by_tex self tex substring case_sensitive = []).
    { rewrite get_parts_by_tex_filter.
      destruct (filter _ (parts self)) as [|m l] eqn:Ef; [done|].
      assert (Hm : m ∈ filter
                (λ m, tex_matches substring case_sensitive tex (tex_string m))
                (parts self)) by (rewrite Ef; apply list_elem_of_here).
      apply list_elem_of_filter in Hm as [Hmatch Hin].
      by destruct (Hnone m Hin). }
    split; [done|]. unfold get_part_by_tex. by rewrite E.
Qed.

End Queries.

Lemma get_parts_by_tex_spec_witness :
  (∀ m, m ∈ parts sample_tagged →
        ¬ tex_matches true true (py "z") (tex_string m)) ∧
  get_parts_by_tex sample_tagged (py "z") true true = [] ∧
  get_part_by_tex sample_tagged (py "z") true true = None.
Proof.
  assert (H : ∀ m, m ∈ parts sample_tagged →
                   ¬ tex_matches true true (py "z") (tex_string m)).
  { intros m Hm Hmatch. apply test_spec in Hmatch.
    unfold sample_tagged in Hm. simpl in Hm.
    repeat (apply elem_of_cons in Hm as [->|Hm]);
      [vm_compute in Hmatch; discriminate ..|].
    by apply elem_of_nil in Hm. }
  split; [exact H|].
  exact (proj2 (proj2 (get_parts_by_tex_spec sample_tagged (py "z") true true))
           H).
Defined.

(** ** The mutators *)

Section Mutators.

Context {A Pos : Type}.

Implicit Types (h : gmap positive (TexMobject A Pos)) (self : positive)
  (obj : TexMobject A Pos) (m : Part A Pos) (l : list (Part A Pos)).

Lemma str_le_total s1 s2 : str_le s1 s2 = false → str_le s2 s1 = true.
Proof.
  revert s2. induction s1 as [|a s1 IH]; intros [|b s2]; simpl; try done.
  destruct (Nat.ltb_spec (nat_of_ascii a) (nat_of_ascii b)); [done|].
  destruct (Nat.ltb_spec (nat_of_ascii b) (nat_of_ascii a)); [done|].
  apply IH.
Qed.

Lemma insert_by_key_perm m l : insert_by_key m l ≡ₚ m :: l.
Proof.
  induction l as [|m' l IH]; simpl; [done|].
  destruct (str_le _ _); [done|]. rewrite IH. apply Permutation_swap.
Qed.

(** [sort] keeps the parts and puts their tags in ascending order. *)
Lemma sort_by_key_perm l : sort_by_key l ≡ₚ l.
Proof.
  induction l as [|m l IH]; simpl; [done|].
  by rewrite insert_by_key_perm, IH.
Qed.

Lemma insert_by_key_sorted m l :
  Sorted (λ m1 m2, str_le (tex_string m1) (tex_string m2) = true) l →
  Sorted (λ m1 m2, str_le (tex_string m1) (tex_string m2) = true)
    (insert_by_key m l).
Proof.
  induction 1 as [|m' l Hs IH Hhd]; simpl.
  - by repeat constructor.
  - unfold get_tex_string.
    destruct (str_le (tex_string m) (tex_string m')) eqn:E.
    + constructor; [by constructor | by constructor].
    + constructor; [done|].
      destruct Hhd as [|m'' l' Hle]; simpl.
      * constructor. by apply str_le_total.
      * unfold get_tex_string.
        destruct (str_le (tex_string m) (tex_string m''));
          constructor; [by apply str_le_total | done].
Qed.

Lemma sort_by_key_sorted l :
  Sorted (λ m1 m2, str_le (tex_string m1) (tex_string m2) = true)
    (sort_by_key l).
Proof.
  induction l as [|m l IH]; simpl; [constructor|].
  by apply insert_by_key_sorted.
Qed.

(** C9 on the code: [set_color_by_tex] and
    [set_color_by_tex_to_color_map] return [self]; [sort_alphabetically]
    sorts the parts of [self] and returns [None]. *)
Theorem sort_alphabetically_returns_none h self obj tex (c : str)
    (texs_to_color_map : list (TexKey * str)) substring case_sensitive :
  h !! self = Some obj →
  set_color_by_tex self tex c substring case_sensitive h
  = Some (PyRef self,
          <[self := color_by_tex tex c substring case_sensitive obj]> h) ∧
  set_color_by_tex_to_color_map self texs_to_color_map substring
    case_sensitive h
  = Some (PyRef self,
          <[self := fold_left (color_by_item substring case_sensitive)
                      texs_to_color_map obj]> h) ∧
  sort_alphabetically self h
  = Some (PyNone, <[self := with_parts obj (sort_by_key (parts obj))]> h) ∧
  PyNone ≠ PyRef self.
Proof.
  intros Hself.
  unfold set_color_by_tex, set_color_by_tex_to_color_map, sort_alphabetically,
    method.
  rewrite Hself. simpl. done.
Qed.

End Mutators.

Lemma sort_alphabetically_returns_none_witness :
  sample_heap !! 1%positive = Some sample_tagged ∧
  sort_alphabetically 1%positive sample_heap
  = Some (PyNone,
          <[1%positive := with_parts sample_tagged
                            (sort_by_key (parts sample_tagged))]> sample_heap).
Proof.
  assert (H : sample_heap !! 1%positive = Some sample_tagged) by reflexivity.
  split; [exact H|].
  exact (proj1 (proj2 (proj2
           (sort_alphabetically_returns_none sample_heap 1%positive
              sample_tagged (py "x") (py "red") [] true true H)))).
Defined.

(** * Further properties of the code *)

(** ** The normaliser: repair, blank input, leading line break *)

Section NormaliserMore.

Implicit Types (tex u t alignment s : str).

Lemma remove_stray_braces_balanced tex :
  count "{" tex = count "}" tex → remove_stray_braces tex = tex.
Proof.
  intros H. rewrite remove_stray_braces_spec, H, Nat.sub_diag. simpl.
  apply app_nil_r.
Qed.

(** X1: [remove_stray_braces] leaves a string with as many ["{"] as ["}"]
    as it is, so repairing twice is repairing once. *)
Theorem remove_stray_braces_idempotent :
  (∀ tex, count "{" tex = count "}" tex → remove_stray_braces tex = tex) ∧
  (∀ tex,
     remove_stray_braces (remove_stray_braces tex) = remove_stray_braces tex).
Proof.
  split; [exact remove_stray_braces_balanced|].
  intros tex. apply remove_stray_braces_balanced.
  pose proof (brace_excess_remove_stray_braces tex) as H.
  unfold brace_excess in H. lia.
Qed.

Lemma lstrip_all_space s : forallb isspace s = true → lstrip s = [].
Proof.
  induction s as [|c s IH]; simpl; [done|].
  destruct (isspace c); [exact IH | done].
Qed.

Lemma strip_all_space s : forallb isspace s = true → strip s = [].
Proof. intros H. unfold strip. by rewrite (lstrip_all_space s H). Qed.

Lemma modify_special_strings_nil : modify_special_strings [] = py "\quad".
Proof. vm_compute. reflexivity. Qed.

(** X2: when the alignment and the string hold nothing but white space
    (the empty string included), the expression handed to the renderer is
    [\quad]. *)
Theorem normalize_blank alignment t :
  forallb isspace (alignment ++ t) = true →
  get_modified_expression alignment t = py "\quad".
Proof.
  intros H. rewrite get_modified_expression_unfold.
  rewrite strip_all_space; [apply modify_special_strings_nil|].
  rewrite forallb_app in H. apply andb_true_iff in H as [Ha Ht].
  rewrite forallb_app, Ha. simpl. exact Ht.
Qed.

Lemma startswith_line_break_cons2 a b s :
  startswith (a :: b :: s) (py "\\")
  = bool_decide ("\"%char = a) && bool_decide ("\"%char = b).
Proof.
  unfold startswith. simpl.
  by repeat case_bool_decide.
Qed.

Lemma guard_line_break_no_leading u :
  startswith (guard_line_break u) (py "\\") = false.
Proof.
  unfold guard_line_break. destruct (startswith u (py "\\")) eqn:E; [|done].
  apply startswith_spec in E as [rest ->].
  rewrite replace_unfold by done.
  rewrite (find_prefix (py "\\") (py "\\" ++ rest) rest)
    by apply strip_prefix_app.
  reflexivity.
Qed.

(** Replacing a control word by another one cannot bring two backslashes
    to the front. *)
Lemma replace_word_no_leading s c o d n :
  c ≠ "\"%char → d ≠ "\"%char →
  startswith s (py "\\") = false →
  startswith (replace s ("\"%char :: c :: o) ("\"%char :: d :: n)) (py "\\")
  = false.
Proof.
  intros Hc Hd Hs. rewrite replace_unfold by done.
  destruct (find _ s) as [[pre post]|] eqn:E; [|done].
  apply find_Some in E. subst s.
  destruct pre as [|x [|y pre]]; simpl app in *.
  - rewrite startswith_line_break_cons2.
    rewrite (bool_decide_eq_false_2 ("\"%char = d)) by congruence.
    apply andb_false_r.
  - rewrite startswith_line_break_cons2 in *.
    rewrite (bool_decide_eq_true_2 ("\"%char = "\"%char)) in * by done.
    exact Hs.
  - rewrite startswith_line_break_cons2 in *. exact Hs.
Qed.

Lemma balance_left_right_no_leading u :
  startswith u (py "\\") = false →
  startswith (balance_left_right u) (py "\\") = false.
Proof.
  intros H. unfold balance_left_right. case_bool_decide; [|done].
  apply (replace_word_no_leading _ "r" (py "ight") "b" (py "ig")); [done..|].
  by apply (replace_word_no_leading _ "l" (py "eft") "b" (py "ig")).
Qed.

(** X3: the expression handed to the renderer never starts with a line
    break [\\]. *)
Theorem normalize_no_leading_line_break alignment t :
  startswith (get_modified_expression alignment t) (py "\\") = false.
Proof.
  rewrite get_modified_expression_unfold, modify_special_strings_unfold.
  cbv zeta. destruct (xorb _ _); [reflexivity|].
  unfold special_rewrites.
  apply balance_left_right_no_leading, guard_line_break_no_leading.
Qed.

End NormaliserMore.

Lemma remove_stray_braces_idempotent_witness :
  count "{" (py "{a}") = count "}" (py "{a}") ∧
  remove_stray_braces (py "{a}") = py "{a}".
Proof.
  assert (H : count "{" (py "{a}") = count "}" (py "{a}")) by reflexivity.
  split; [exact H|].
  exact (proj1 remove_stray_braces_idempotent (py "{a}") H).
Defined.

Lemma normalize_blank_witness :
  forallb isspace ([] ++ py "  ") = true ∧
  get_modified_expression [] (py "  ") = py "\quad".
Proof.
  assert (H : forallb isspace ([] ++ py "  ") = true) by reflexivity.
  split; [exact H|]. exact (normalize_blank [] (py "  ") H).
Defined.

(** ** The segmenter: what its elements look like *)

Section SegmenterMore.

Context {A Pos : Type}.
Variable split_string_list_to_isolate_substrings :
  list str → list TexKey → list str.

Lemma strip_trimmed s :
  from_option isspace false (head (strip s)) = false ∧
  from_option isspace false (last (strip s)) = false.
Proof. destruct (strip_spec s) as (l & r & _ & _ & _ & Hh & Hl). done. Qed.

(** X4: no element the segmenter returns is empty; when [arg_separator]
    is one space, none starts or ends with white space. *)
Theorem segmenter_elements (self : TexMobject A Pos) (tex_strings : list str) :
  Forall (λ s, s ≠ [])
    (break_up_tex_strings split_string_list_to_isolate_substrings self
       tex_strings) ∧
  (arg_separator self = py " " →
   Forall (λ s, from_option isspace false (head s) = false ∧
                from_option isspace false (last s) = false)
     (break_up_tex_strings split_string_list_to_isolate_substrings self
        tex_strings)).
Proof.
  unfold break_up_tex_strings. rewrite filter_bool_decide. split.
  - apply Forall_forall. intros s Hs.
    by apply list_elem_of_filter in Hs as [Hne _].
  - intros Hsep. rewrite bool_decide_eq_true_2 by done.
    apply Forall_forall. intros s Hs.
    apply list_elem_of_filter in Hs as [_ Hin].
    apply list_elem_of_fmap in Hin as (s0 & -> & _). apply strip_trimmed.
Qed.

End SegmenterMore.

Lemma segmenter_elements_witness :
  arg_separator sample_abc = py " " ∧
  Forall (λ s, from_option isspace false (head s) = false ∧
               from_option isspace false (last s) = false)
    (break_up_tex_strings (λ l _, l) sample_abc [py " a "; py "  "; py "b"]).
Proof.
  assert (H : arg_separator sample_abc = py " ") by reflexivity.
  split; [exact H|].
  exact (proj2 (segmenter_elements (λ l _, l) sample_abc
                  [py " a "; py "  "; py "b"]) H).
Defined.

(** ** The assembler: when it raises, and what its parts hold *)

Section AssemblerMore.

Context {A Pos : Type}.
Variable svg_submobjects : str → str → list A.
Variable right_edge : A → Pos.

Implicit Types (flat : list A) (ty s : str) (strings : list str)
  (acc gs : list (Part A Pos)) (i c : nat).

Abbreviation num' := (num_submobs_of svg_submobjects).
Abbreviation loop' := (break_up_loop svg_submobjects right_edge).
Abbreviation total' := (total_submobs svg_submobjects).




(** X6: when the counts sum to the length of the flat render, no part of
    a returned tree is without a submobject, so the first shape of each
    part ([part[0]], which [BulletedList] reads) is there. *)
Theorem assembler_parts_nonempty (self : TexMobject A Pos) flat tree :
  break_up_by_substrings svg_submobjects right_edge self flat = Ok tree →
  total' (type self) (tex_strings self) = length flat →
  Forall (λ g, submobjects g ≠ []) tree.
Proof.
  intros Ht Hsum. apply break_up_Ok in Ht. apply Forall_lookup.
  intros k g Hk.
  assert (Hs : tex_strings self !! k = Some (tex_string g)).
  { rewrite <- (parts_from_tex_strings _ _ _ _ _ _ _ Ht), list_lookup_fmap.
    by rewrite Hk. }
  destruct (parts_from_lookup _ _ _ _ _ _ _ _ _ Ht Hs) as (g' & Hg' & Hp).
  rewrite Hk in Hg'. injection Hg' as <-.
  pose proof (total_lookup_le svg_submobjects (type self) _ _ _ Hs) as Hle.
  destruct Hp as (_ & _ & [(_ & a & _ & ->)|(Hpos & ->)]); [done|].
  intros Hnil. apply fmap_nil_inv in Hnil.
  apply (f_equal length) in Hnil. rewrite length_slice in Hnil; simpl in *; lia.
Qed.

(** X7: the point of a substring that renders to nothing lies at the right
    edge of the first flat leaf when no leaf has been handed out yet, and
    at the right edge of the last flat leaf when all have been. *)
Theorem placeholder_at_the_ends (self : TexMobject A Pos) flat tree pre s post :
  tex_strings self = pre ++ s :: post →
  break_up_by_substrings svg_submobjects right_edge self flat = Ok tree →
  num' (type self) s = 0 →
  ∃ g, tree !! length pre = Some g ∧
    (total' (type self) pre = 0 →
     ∃ a, head flat = Some a ∧
          submobjects g = [VectorizedPoint (right_edge a)]) ∧
    (length flat ≤ total' (type self) pre →
     ∃ a, last flat = Some a ∧
          submobjects g = [VectorizedPoint (right_edge a)]).
Proof.
  intros Hs Ht Hzero. apply break_up_Ok in Ht. rewrite Hs in Ht.
  destruct (parts_from_lookup svg_submobjects right_edge flat (type self) 0
              (pre ++ s :: post) tree (length pre) s Ht) as (g & Hg & Hp).
  { by rewrite list_lookup_middle. }
  rewrite take_app_length in Hp. simpl in Hp.
  exists g. split; [done|].
  destruct Hp as (_ & _ & [(_ & a & Ha & Hsub)|(Hpos & _)]); [|lia].
  split.
  - intros H0. exists a. split; [|done].
    rewrite H0 in Ha. simpl in Ha. by rewrite head_lookup.
  - intros Hend. exists a. split; [|done].
    rewrite last_lookup. rewrite <- Ha. f_equal. lia.
Qed.

End AssemblerMore.


Lemma assembler_parts_nonempty_witness :
  break_up_by_substrings sample_svg id sample_abc (sample_flat sample_abc)
  = Ok sample_abc_tree ∧
  total_submobs sample_svg (type sample_abc) (tex_strings sample_abc)
  = length (sample_flat sample_abc) ∧
  Forall (λ g, submobjects g ≠ []) sample_abc_tree.
Proof.
  assert (H1 : break_up_by_substrings sample_svg id sample_abc
                 (sample_flat sample_abc) = Ok sample_abc_tree)
    by (vm_compute; reflexivity).
  assert (H2 : total_submobs sample_svg (type sample_abc)
                 (tex_strings sample_abc) = length (sample_flat sample_abc))
    by (vm_compute; reflexivity).
  split; [exact H1|]. split; [exact H2|].
  exact (assembler_parts_nonempty sample_svg id sample_abc
           (sample_flat sample_abc) sample_abc_tree H1 H2).
Defined.

Lemma placeholder_at_the_ends_witness :
  tex_strings sample_lead = [] ++ py "{}" :: [py "b"] ∧
  break_up_by_substrings sample_svg_lead id sample_lead sample_lead_flat
  = Ok sample_lead_tree ∧
  num_submobs_of sample_svg_lead (type sample_lead) (py "{}") = 0 ∧
  total_submobs sample_svg_lead (type sample_lead) [] = 0 ∧
  ∃ g, sample_lead_tree !! 0 = Some g ∧
       ∃ a, head sample_lead_flat = Some a ∧
            submobjects g = [VectorizedPoint (id a)].
Proof.
  assert (H1 : tex_strings sample_lead = [] ++ py "{}" :: [py "b"])
    by reflexivity.
  assert (H2 : break_up_by_substrings sample_svg_lead id sample_lead
                 sample_lead_flat = Ok sample_lead_tree)
    by (vm_compute; reflexivity).
  assert (H3 : num_submobs_of sample_svg_lead (type sample_lead) (py "{}") = 0)
    by reflexivity.
  assert (H4 : total_submobs sample_svg_lead (type sample_lead) [] = 0)
    by reflexivity.
  split_and!; [exact H1 | exact H2 | exact H3 | exact H4 |].
  destruct (placeholder_at_the_ends sample_svg_lead id sample_lead
              sample_lead_flat sample_lead_tree [] (py "{}") [py "b"]
              H1 H2 H3) as (g & Hg & Hfirst & _).
  exists g. split; [exact Hg | exact (Hfirst H4)].
Defined.

(** ** Queries: what is found *)

Section QueriesMore.

Context {A Pos : Type}.

Implicit Types (self : TexMobject A Pos) (m : Part A Pos) (tex : str).

Lemma find_nil s : find [] s = Some ([], s).
Proof. by destruct s. Qed.

Lemma filter_all_true {T} (f : T → bool) (l : list T) :
  (∀ x, f x = true) → List.filter f l = l.
Proof.
  intros H. induction l as [|x l IH]; simpl; [done|]. by rewrite H, IH.
Qed.

(** X8: the empty query, with substring matching on, finds every part. *)
Theorem get_parts_by_tex_empty_query self case_sensitive :
  get_parts_by_tex self [] true case_sensitive = parts self.
Proof.
  unfold get_parts_by_tex. apply filter_all_true. intros m.
  unfold test, contains. destruct case_sensitive; simpl; by rewrite find_nil.
Qed.






Lemma head_filter_Some {T} (f : T → bool) (l : list T) x :
  head (List.filter f l) = Some x
  ↔ ∃ l1 l2, l = l1 ++ x :: l2 ∧ f x = true ∧ forallb (λ y, negb (f y)) l1 = true.
Proof.
  induction l as [|y l IH]; simpl.
  - split; [done|]. intros (l1 & l2 & Hl & _). by destruct l1.
  - destruct (f y) eqn:Ey; simpl.
    + split.
      * intros [= ->]. by exists [], l.
      * intros (l1 & l2 & Hl & Hx & Hl1). destruct l1 as [|z l1].
        -- by injection Hl as ->.
        -- injection Hl as -> _. simpl in Hl1. by rewrite Ey in Hl1.
    + rewrite IH. split.
      * intros (l1 & l2 & -> & Hx & Hl1). exists (y :: l1), l2.
        simpl. by rewrite Ey.
      * intros (l1 & l2 & Hl & Hx & Hl1). destruct l1 as [|z l1].
        -- injection Hl as -> _. congruence.
        -- injection Hl as -> ->. simpl in Hl1. rewrite Ey in Hl1.
           by exists l1, l2.
Qed.

(** X10: [get_part_by_tex] gives a part exactly when that part answers
    the query and no part before it in the tree does; it gives [None]
    exactly when no part answers. *)
Theorem get_part_by_tex_first self tex substring case_sensitive :
  (∀ m, get_part_by_tex self tex substring case_sensitive = Some m
        ↔ ∃ l1 l2,
            parts self = l1 ++ m :: l2 ∧
            tex_matches substring case_sensitive tex (tex_string m) ∧
            Forall (λ m', ¬ tex_matches substring case_sensitive tex
                             (tex_string m')) l1) ∧
  (get_part_by_tex self tex substring case_sensitive = None
   ↔ Forall (λ m', ¬ tex_matches substring case_sensitive tex (tex_string m'))
       (parts self)).
Proof.
  assert (Hhead : get_part_by_tex self tex substring case_sensitive
                  = head (get_parts_by_tex self tex substring case_sensitive)).
  { unfold get_part_by_tex. by destruct (get_parts_by_tex _ _ _ _). }
  assert (Hneg : ∀ l,
            forallb (λ y, negb (test substring case_sensitive tex
                                  (get_tex_string y))) l = true
            ↔ Forall (λ m', ¬ tex_matches substring case_sensitive tex
                               (tex_string m')) l).
  { intros l. rewrite forallb_forall, Forall_forall. split; intros H m' Hin.
    - intros Hm. apply test_spec in Hm. apply list_elem_of_In in Hin.
      specialize (H m' Hin). unfold get_tex_string in H.
      rewrite Hm in H. done.
    - apply list_elem_of_In in Hin. specialize (H m' Hin).
      destruct (test _ _ _ _) eqn:E; [|done].
      by apply test_spec in E. }
  split.
  - intros m. rewrite Hhead. unfold get_parts_by_tex.
    rewrite head_filter_Some. split.
    + intros (l1 & l2 & Hl & Hm & Hl1). exists l1, l2. split; [done|].
      split; [by apply test_spec | by apply Hneg].
    + intros (l1 & l2 & Hl & Hm & Hl1). exists l1, l2. split; [done|].
      split; [by apply test_spec | by apply Hneg].
  - rewrite Hhead, head_None, <- Hneg. unfold get_parts_by_tex.
    generalize (parts self). intros l. induction l as [|m l IH]; simpl; [done|].
    destruct (test _ _ _ _); simpl; [done | exact IH].
Qed.

End QueriesMore.

Lemma get_part_by_tex_first_witness :
  get_part_by_tex sample_tagged (py "x^") true true
  = Some {| tex_string := py "x^2"; submobjects := [TexSymbol 2; TexSymbol 3];
            color := None |} ∧
  ∃ l1 l2,
    parts sample_tagged
    = l1 ++ {| tex_string := py "x^2";
               submobjects := [TexSymbol 2; TexSymbol 3];
               color := None |} :: l2 ∧
    tex_matches true true (py "x^") (py "x^2") ∧
    Forall (λ m', ¬ tex_matches true true (py "x^") (tex_string m')) l1.
Proof.
  assert (H : get_part_by_tex sample_tagged (py "x^") true true
              = Some {| tex_string := py "x^2";
                        submobjects := [TexSymbol 2; TexSymbol 3];
                        color := None |})
    by (vm_compute; reflexivity).
  split; [exact H|].
  exact (proj1 (proj1 (get_part_by_tex_first sample_tagged (py "x^") true true)
                  _) H).
Defined.

(** ** Colouring and sorting *)

Section MutatorsMore.

Context {A Pos : Type}.

Implicit Types (h : gmap positive (TexMobject A Pos)) (self : positive)
  (obj : TexMobject A Pos) (m : Part A Pos) (tex c : str).

Lemma color_by_tex_twice tex c1 c2 substring case_sensitive obj :
  color_by_tex tex c2 substring case_sensitive
    (color_by_tex tex c1 substring case_sensitive obj)
  = color_by_tex tex c2 substring case_sensitive obj.
Proof.
  unfold color_by_tex, with_parts. simpl. f_equal.
  rewrite map_map. apply map_ext. intros m. unfold get_tex_string.
  destruct (test _ _ _ (tex_string m)) eqn:E; simpl; by rewrite E.
Qed.

(** X11: colouring by a query with [c1] and then by the same query with
    [c2] leaves the store as colouring with [c2] alone does; with
    [c1 = c2], colouring twice is colouring once. *)
Theorem set_color_by_tex_twice h self tex c1 c2 substring case_sensitive :
  (set_color_by_tex self tex c1 substring case_sensitive h
   ≫= λ r, set_color_by_tex self tex c2 substring case_sensitive r.2)
  = set_color_by_tex self tex c2 substring case_sensitive h.
Proof.
  unfold set_color_by_tex, method.
  destruct (h !! self) as [obj|] eqn:E; simpl; [|done].
  rewrite lookup_insert_eq. simpl.
  by rewrite insert_insert_eq, color_by_tex_twice.
Qed.

Lemma filter_map_if {T} (f : T → bool) (g : T → T) (l : list T) :
  (∀ x, f (g x) = f x) →
  List.filter f (map (λ x, if f x then g x else x) l) = map g (List.filter f l).
Proof.
  intros H. induction l as [|x l IH]; simpl; [done|].
  destruct (f x) eqn:E; simpl.
  - rewrite H, E. simpl. by rewrite IH.
  - by rewrite E.
Qed.

Lemma filter_neg_map_if {T} (f : T → bool) (g : T → T) (l : list T) :
  (∀ x, f (g x) = f x) →
  List.filter (λ x, negb (f x)) (map (λ x, if f x then g x else x) l)
  = List.filter (λ x, negb (f x)) l.
Proof.
  intros H. induction l as [|x l IH]; simpl; [done|].
  destruct (f x) eqn:E; simpl.
  - rewrite H, E. simpl. exact IH.
  - rewrite E. simpl. by rewrite IH.
Qed.

(** X12: after [set_color_by_tex(tex, c)] the parts the same query finds
    are the parts it found before, now of colour [c]; the parts it does
    not find are as they were; no part has changed its tag or its
    shapes, and [self] is returned. *)
Theorem set_color_by_tex_colors_what_it_finds h self obj tex c
    substring case_sensitive :
  h !! self = Some obj →
  ∃ obj',
    set_color_by_tex self tex c substring case_sensitive h
    = Some (PyRef self, <[self := obj']> h) ∧
    get_parts_by_tex obj' tex substring case_sensitive
    = set_color c <$> get_parts_by_tex obj tex substring case_sensitive ∧
    List.filter (λ m, negb (test substring case_sensitive tex (tex_string m)))
      (parts obj')
    = List.filter (λ m, negb (test substring case_sensitive tex (tex_string m)))
        (parts obj) ∧
    tex_string <$> parts obj' = tex_string <$> parts obj ∧
    submobjects <$> parts obj' = submobjects <$> parts obj.
Proof.
  intros Hself. exists (color_by_tex tex c substring case_sensitive obj).
  split_and!.
  - unfold set_color_by_tex, method. by rewrite Hself.
  - unfold get_parts_by_tex, color_by_tex. simpl.
    by apply (filter_map_if
                (λ m, test substring case_sensitive tex (get_tex_string m))).
  - unfold color_by_tex. simpl.
    by apply (filter_neg_map_if
                (λ m, test substring case_sensitive tex (get_tex_string m))).
  - unfold color_by_tex. simpl. rewrite <- list_fmap_compose.
    apply list_fmap_ext. intros _ m _. simpl. by destruct (test _ _ _ _).
  - unfold color_by_tex. simpl. rewrite <- list_fmap_compose.
    apply list_fmap_ext. intros _ m _. simpl. by destruct (test _ _ _ _).
Qed.

Lemma color_by_item_Many substring case_sensitive obj texs c :
  color_by_item substring case_sensitive obj (Many texs, c)
  = fold_left (color_by_item substring case_sensitive)
      ((λ t, (Single t, c)) <$> texs) obj.
Proof.
  simpl. revert obj. induction texs as [|t texs IH]; intros obj; simpl; [done|].
  apply IH.
Qed.

(** X13: in a colour map, a tuple key does what its members do as keys of
    their own, one after the other, with the tuple's colour. *)
Theorem color_map_tuple_key h self (m1 m2 : list (TexKey * str)) texs c
    substring case_sensitive :
  set_color_by_tex_to_color_map self (m1 ++ (Many texs, c) :: m2)
    substring case_sensitive h
  = set_color_by_tex_to_color_map self
      (m1 ++ ((λ t, (Single t, c)) <$> texs) ++ m2) substring case_sensitive h.
Proof.
  unfold set_color_by_tex_to_color_map, method.
  destruct (h !! self) as [obj|]; simpl; [|done].
  do 3 f_equal. rewrite !fold_left_app.
  change (fold_left ?f ((Many texs, c) :: m2) ?x)
    with (fold_left f m2 (f x (Many texs, c))).
  by rewrite color_by_item_Many.
Qed.

(** *** Sorting *)

Lemma str_le_refl s : str_le s s = true.
Proof.
  induction s as [|a s IH]; simpl; [done|].
  by rewrite Nat.ltb_irrefl.
Qed.

Lemma str_le_trans s1 s2 s3 :
  str_le s1 s2 = true → str_le s2 s3 = true → str_le s1 s3 = true.
Proof.
  revert s2 s3. induction s1 as [|a s1 IH]; intros [|b s2] [|d s3]; simpl;
    try done.
  intros H12 H23.
  repeat match goal with
         | H : context [?x <? ?y] |- _ => destruct (Nat.ltb_spec x y)
         | |- context [?x <? ?y] => destruct (Nat.ltb_spec x y)
         end; try done; try lia.
  by eapply IH.
Qed.

Lemma str_le_antisym s1 s2 :
  str_le s1 s2 = true → str_le s2 s1 = true → s1 = s2.
Proof.
  revert s2. induction s1 as [|a s1 IH]; intros [|b s2]; simpl; try done.
  destruct (Nat.ltb_spec (nat_of_ascii a) (nat_of_ascii b)),
    (Nat.ltb_spec (nat_of_ascii b) (nat_of_ascii a)); try done; try lia.
  intros H1 H2. f_equal; [|by apply IH].
  rewrite <- (ascii_nat_embedding a), <- (ascii_nat_embedding b).
  f_equal. lia.
Qed.

Lemma insert_by_key_filter m (l : list (Part A Pos)) t :
  filter (λ m', tex_string m' = t) (insert_by_key m l)
  = filter (λ m', tex_string m' = t) (m :: l).
Proof.
  induction l as [|m' l IH]; simpl; [done|].
  unfold get_tex_string.
  destruct (str_le (tex_string m) (tex_string m')) eqn:E; [done|].
  rewrite filter_cons, IH, !filter_cons.
  destruct (decide (tex_string m' = t)) as [H'|H'],
    (decide (tex_string m = t)) as [H|H]; try done.
  rewrite H, <- H', str_le_refl in E. done.
Qed.

Lemma sort_by_key_filter (l : list (Part A Pos)) t :
  filter (λ m', tex_string m' = t) (sort_by_key l)
  = filter (λ m', tex_string m' = t) l.
Proof.
  induction l as [|m l IH]; simpl; [done|].
  by rewrite insert_by_key_filter, !filter_cons, IH.
Qed.

Lemma sort_by_key_of_sorted (l : list (Part A Pos)) :
  Sorted (λ m1 m2, str_le (tex_string m1) (tex_string m2) = true) l →
  sort_by_key l = l.
Proof.
  induction 1 as [|m l Hs IH Hhd]; simpl; [done|].
  rewrite IH. destruct Hhd as [|m' l' Hle]; simpl; [done|].
  unfold get_tex_string. by rewrite Hle.
Qed.

(** X14: [sort_alphabetically] leaves in [self] the same parts, each as
    often as before, with tags ascending in the order of Python strings;
    parts of one tag keep their order. *)
Theorem sort_alphabetically_sorts h self obj :
  h !! self = Some obj →
  ∃ obj',
    sort_alphabetically self h = Some (PyNone, <[self := obj']> h) ∧
    parts obj' ≡ₚ parts obj ∧
    StronglySorted (λ m1 m2, str_le (tex_string m1) (tex_string m2) = true)
      (parts obj') ∧
    ∀ t, filter (λ m, tex_string m = t) (parts obj')
         = filter (λ m, tex_string m = t) (parts obj).
Proof.
  intros Hself. exists (with_parts obj (sort_by_key (parts obj))).
  split_and!.
  - unfold sort_alphabetically, method. by rewrite Hself.
  - apply sort_by_key_perm.
  - apply Sorted_StronglySorted; [|apply sort_by_key_sorted].
    intros m1 m2 m3. apply str_le_trans.
  - intros t. apply sort_by_key_filter.
Qed.

(** X15: sorting a second time changes nothing. *)
Theorem sort_alphabetically_twice h self :
  (sort_alphabetically self h ≫= λ r, sort_alphabetically self r.2)
  = sort_alphabetically self h.
Proof.
  unfold sort_alphabetically, method.
  destruct (h !! self) as [obj|] eqn:E; simpl; [|done].
  rewrite lookup_insert_eq. simpl. rewrite insert_insert_eq.
  unfold with_parts at 1. simpl.
  by rewrite (sort_by_key_of_sorted _ (sort_by_key_sorted (parts obj))).
Qed.

End MutatorsMore.

Lemma set_color_by_tex_colors_what_it_finds_witness :
  sample_heap !! 1%positive = Some sample_tagged ∧
  ∃ obj',
    set_color_by_tex 1%positive (py "x") (py "red") true true sample_heap
    = Some (PyRef 1%positive, <[1%positive := obj']> sample_heap) ∧
    get_parts_by_tex obj' (py "x") true true
    = set_color (py "red") <$> get_parts_by_tex sample_tagged (py "x") true true.
Proof.
  assert (H : sample_heap !! 1%positive = Some sample_tagged) by reflexivity.
  split; [exact H|].
  destruct (set_color_by_tex_colors_what_it_finds sample_heap 1%positive
              sample_tagged (py "x") (py "red") true true H)
    as (obj' & H1 & H2 & _).
  exists obj'. split; [exact H1 | exact H2].
Defined.

Lemma sort_alphabetically_sorts_witness :
  sample_heap !! 1%positive = Some sample_tagged ∧
  ∃ obj',
    sort_alphabetically 1%positive sample_heap
    = Some (PyNone, <[1%positive := obj']> sample_heap) ∧
    parts obj' ≡ₚ parts sample_tagged.
Proof.
  assert (H : sample_heap !! 1%positive = Some sample_tagged) by reflexivity.
  split; [exact H|].
  destruct (sort_alphabetically_sorts sample_heap 1%positive sample_tagged H)
    as (obj' & H1 & H2 & _).
  exists obj'. split; [exact H1 | exact H2].
Defined.

(** ** Construction *)

Section ConstructionFacts.

Context {A Pos : Type}.
Variable svg_submobjects : str → str → list A.
Variable right_edge : A → Pos.
Variable split_string_list_to_isolate_substrings :
  list str → list TexKey → list str.
Variable sort_leaves : list A → list A.
Variable sort_parts : list (Part A Pos) → list (Part A Pos).

Implicit Types (self obj : TexMobject A Pos).






End ConstructionFacts.


Example post_init_colored :
  (λ m, (tex_string m, color m))
    <$> match post_init sample_svg id (λ l _, l) id id false sample_colored with
        | Ok obj => parts obj
        | Raise _ => []
        end
  = [(py "a", None); (py "{}", None); (py "b", Some (py "red"))].
Proof. vm_compute. reflexivity. Qed.

(** ** The normaliser: dangling subscripts and superscripts *)

Section NormaliserEnds.

Implicit Types (tex u t alignment s old new : str) (c : ascii).

Lemma startswith_singleton s c :
  startswith s [c] = true ↔ head s = Some c.
Proof.
  unfold startswith. destruct s as [|d s]; simpl; [done|].
  case_bool_decide as E; [subst d; by destruct s | split; [done|]].
  intros [= ->]. done.
Qed.

Lemma endswith_singleton s c : endswith s [c] = true ↔ last s = Some c.
Proof.
  unfold endswith. change (rev [c]) with [c].
  by rewrite startswith_singleton, head_rev.
Qed.

Lemma last_app_nonempty {T} (l1 l2 : list T) :
  l2 ≠ [] → last (l1 ++ l2) = last l2.
Proof.
  intros H. rewrite last_app. destruct (last l2) eqn:E; [done|].
  by apply last_None in E.
Qed.

(** The last character after a replacement is the last one before it, or
    the last one of what was put in. *)
Lemma last_replace_fuel n old new s :
  old ≠ [] → new ≠ [] →
  last (replace_fuel n old new s) = last s
  ∨ last (replace_fuel n old new s) = last new.
Proof.
  intros Hold Hnew. revert s. induction n as [|n IH]; intros s; simpl; [by left|].
  destruct (find old s) as [[pre post]|] eqn:E; [|by left].
  apply find_Some in E. subst s.
  destruct post as [|p post].
  - right. assert (Hr : replace_fuel n old new [] = []).
    { destruct n; simpl; [done|]. destruct old; [done|]. done. }
    rewrite Hr, app_nil_r. by apply last_app_nonempty.
  - assert (Hne : replace_fuel n old new (p :: post) ≠ [])
      by (by apply replace_fuel_nonempty).
    rewrite !app_assoc, (last_app_nonempty _ _ Hne).
    rewrite (last_app_nonempty _ (p :: post)) by done.
    apply IH.
Qed.

Lemma last_replace s old new c :
  old ≠ [] → new ≠ [] → last new ≠ Some c →
  last s ≠ Some c → last (replace s old new) ≠ Some c.
Proof.
  intros Hold Hnew Hc Hs.
  destruct (last_replace_fuel (S (length s)) old new s Hold Hnew) as [H|H];
    unfold replace; by rewrite H.
Qed.

Lemma should_add_filler_false u :
  should_add_filler u = false →
  endswith u (py "_") = false ∧ endswith u (py "^") = false.
Proof.
  unfold should_add_filler, reduce_or. cbn [fold_left].
  destruct (endswith u (py "_")), (endswith u (py "^")); try done;
    rewrite ?orb_true_r; simpl; try done.
Qed.

Lemma special_rewrites_last tex c :
  (c = "_" ∨ c = "^")%char → last (special_rewrites tex) ≠ Some c.
Proof.
  intros Hc. unfold special_rewrites.
  set (r := remove_stray_braces tex).
  assert (H1 : last (add_filler r) ≠ Some c).
  { unfold add_filler. destruct (should_add_filler r) eqn:E.
    - rewrite last_app_nonempty by done. destruct Hc as [-> | ->]; done.
    - apply should_add_filler_false in E as [E1 E2].
      intros Hl. destruct Hc as [-> | ->].
      + apply (endswith_singleton r "_") in Hl. change [("_")%char] with (py "_") in Hl.
        congruence.
      + apply (endswith_singleton r "^") in Hl. change [("^")%char] with (py "^") in Hl.
        congruence. }
  assert (H2 : last (replace_substack (add_filler r)) ≠ Some c).
  { unfold replace_substack. case_bool_decide; [|done].
    destruct Hc as [-> | ->]; done. }
  assert (H3 : last (replace_empty (replace_substack (add_filler r))) ≠ Some c).
  { unfold replace_empty. case_bool_decide; [|done].
    destruct Hc as [-> | ->]; done. }
  assert (H4 : last (guard_line_break
                       (replace_empty (replace_substack (add_filler r))))
               ≠ Some c).
  { unfold guard_line_break. destruct (startswith _ _); [|done].
    apply last_replace; [done | done | | done].
    destruct Hc as [-> | ->]; done. }
  unfold balance_left_right. case_bool_decide; [|done].
  apply last_replace; [done | done | destruct Hc as [-> | ->]; done |].
  apply last_replace; [done | done | destruct Hc as [-> | ->]; done | done].
Qed.

(** X17: the expression handed to the renderer never ends with ["_"] or
    ["^"]: a dangling subscript or superscript has been given its
    filler. *)
Theorem normalize_no_dangling_script alignment t :
  endswith (get_modified_expression alignment t) (py "_") = false ∧
  endswith (get_modified_expression alignment t) (py "^") = false.
Proof.
  rewrite get_modified_expression_unfold, modify_special_strings_unfold.
  cbv zeta. destruct (xorb _ _); [done|].
  set (u := special_rewrites _).
  pose proof (special_rewrites_last (strip (alignment ++ py " " ++ t)) "_"
                (or_introl eq_refl)) as H1.
  pose proof (special_rewrites_last (strip (alignment ++ py " " ++ t)) "^"
                (or_intror eq_refl)) as H2.
  fold u in H1, H2. split.
  - destruct (endswith u (py "_")) eqn:E; [|done].
    by apply (endswith_singleton u "_") in E.
  - destruct (endswith u (py "^")) eqn:E; [|done].
    by apply (endswith_singleton u "^") in E.
Qed.

End NormaliserEnds.

(** ** The normaliser: [\left] and [\right] *)

Section ControlWords.

(** Two control words, [\x...] looked for and [\y...] put in, that differ
    in the character after the backslash. *)
Variables (x y : ascii) (w' n' : str).
Hypothesis no_backslash_w : "\"%char ∉ x :: w'.
Hypothesis no_backslash_n : "\"%char ∉ y :: n'.
Hypothesis x_not_y : x ≠ y.

Let w : str := "\"%char :: x :: w'.
Let new : str := "\"%char :: y :: n'.

Implicit Types (s pre post old : str).

(** Where an occurrence of a word lies in a concatenation: in the first
    list, in the second, or across the seam. *)
Lemma occurs_app (v l1 l2 a b : str) :
  a ++ v ++ b = l1 ++ l2 →
  (∃ b', l1 = a ++ v ++ b') ∨ (∃ a', l2 = a' ++ v ++ b) ∨
  (∃ v1 v2, v = v1 ++ v2 ∧ v1 ≠ [] ∧ v2 ≠ [] ∧ l1 = a ++ v1 ∧ l2 = v2 ++ b).
Proof.
  intros H. apply app_eq_inv in H as [(k & -> & ->)|(k & -> & H)].
  - right. left. by exists k.
  - apply app_eq_inv in H as [(k' & -> & ->)|(k' & -> & ->)].
    + destruct k as [|c k].
      * right. left. by exists [].
      * destruct k' as [|c' k'].
        -- left. exists []. by rewrite !app_nil_r.
        -- right. right. by exists (c :: k), (c' :: k').
    + left. by exists k'.
Qed.

Lemma find_leftmost v s pre post :
  v ≠ [] → find v s = Some (pre, post) → ∀ a b, pre ≠ a ++ v ++ b.
Proof.
  intros Hv. revert pre. induction s as [|c s IH]; intros pre; simpl.
  - destruct (strip_prefix v []); [|done]. intros [= <- <-] a b H.
    destruct a; [destruct v|]; done.
  - destruct (strip_prefix v (c :: s)) eqn:E.
    + intros [= <- <-] a b H. destruct a; [destruct v|]; done.
    + destruct (find v s) as [[pre' post']|] eqn:Ef; [|done].
      intros [= <- <-] a b H. destruct a as [|d a].
      * apply find_Some in Ef. simpl in H. rewrite Ef in E.
        change (c :: pre' ++ v ++ post') with ((c :: pre') ++ v ++ post') in E.
        rewrite H, <- !app_assoc, strip_prefix_app in E. done.
      * injection H as -> H. by eapply IH.
Qed.

Lemma not_occurs_new_then (r : str) :
  (∀ a b, r ≠ a ++ w ++ b) → ∀ a b, new ++ r ≠ a ++ w ++ b.
Proof.
  intros Hr a b H. symmetry in H.
  apply occurs_app in H
    as [(b' & H)|[(a' & H)|(v1 & v2 & Hv & Hv1 & Hv2 & H1 & H2)]].
  - destruct a as [|c a]; unfold new, w in H; simpl in H.
    + injection H as H _. by apply x_not_y.
    + injection H as _ H. apply no_backslash_n. rewrite H.
      apply elem_of_app. right. apply list_elem_of_here.
  - by eapply Hr.
  - unfold w in Hv. destruct v1 as [|c v1]; [done|]. injection Hv as <- Hv.
    destruct a as [|c a]; unfold new in H1; simpl in H1.
    + injection H1 as H1. destruct v1 as [|d v1].
      * by destruct n'.
      * injection H1 as H1 _. injection Hv as Hv _. apply x_not_y. congruence.
    + injection H1 as _ H1. apply no_backslash_n. rewrite H1.
      apply elem_of_app. right. apply list_elem_of_here.
Qed.

Lemma not_occurs_pre_then pre (r : str) :
  (∀ a b, pre ≠ a ++ w ++ b) → (∀ a b, "\"%char :: r ≠ a ++ w ++ b) →
  ∀ a b, pre ++ "\"%char :: r ≠ a ++ w ++ b.
Proof.
  intros Hpre Hr a b H. symmetry in H.
  apply occurs_app in H
    as [(b' & H)|[(a' & H)|(v1 & v2 & Hv & Hv1 & Hv2 & H1 & H2)]].
  - by eapply Hpre.
  - by eapply Hr.
  - unfold w in Hv. destruct v1 as [|c v1]; [done|]. injection Hv as <- Hv.
    destruct v2 as [|d v2]; [done|]. injection H2 as <- _.
    apply no_backslash_w. rewrite Hv.
    apply elem_of_app. right. apply list_elem_of_here.
Qed.

Lemma not_occurs_rebuilt pre (r : str) :
  (∀ a b, pre ≠ a ++ w ++ b) → (∀ a b, r ≠ a ++ w ++ b) →
  ∀ a b, pre ++ new ++ r ≠ a ++ w ++ b.
Proof.
  intros Hpre Hr. apply (not_occurs_pre_then pre (y :: n' ++ r) Hpre).
  by apply not_occurs_new_then.
Qed.

(** Putting [new] in place of any word brings no occurrence of [w]. *)
Lemma replace_fuel_brings_none n old s :
  (∀ a b, s ≠ a ++ w ++ b) →
  ∀ a b, replace_fuel n old new s ≠ a ++ w ++ b.
Proof.
  revert s. induction n as [|n IH]; intros s Hs; simpl; [done|].
  destruct (find old s) as [[pre post]|] eqn:E; [|done].
  apply find_Some in E. subst s. apply not_occurs_rebuilt.
  - intros a b ->. apply (Hs a (b ++ old ++ post)). by rewrite <- !app_assoc.
  - apply IH. intros a b ->. apply (Hs (pre ++ old ++ a) b).
    by rewrite <- !app_assoc.
Qed.

(** Putting [new] in place of [w] leaves no occurrence of [w]. *)
Lemma replace_fuel_leaves_none n s :
  length s < n → ∀ a b, replace_fuel n w new s ≠ a ++ w ++ b.
Proof.
  revert s. induction n as [|n IH]; intros s Hn; [lia|]. simpl.
  destruct (find w s) as [[pre post]|] eqn:E.
  - pose proof (find_shorter w s pre post ltac:(done) E).
    apply not_occurs_rebuilt.
    + by eapply find_leftmost.
    + apply IH. lia.
  - intros a b Hs. destruct (find_app a w b) as [r Hr].
    change (a ++ w ++ b) with (a ++ "\"%char :: x :: w' ++ b) in Hr.
    rewrite <- Hs in Hr. rewrite E in Hr. done.
Qed.

End ControlWords.

Section LeftRight.

Implicit Types (tex u t alignment s : str).

Lemma num_delims_not_occurs s v :
  (∀ a b, s ≠ a ++ v ++ b) → num_delims s v = 0.
Proof.
  intros H. unfold num_delims, split. simpl.
  destruct (find v s) as [[pre post]|] eqn:E; [|done].
  apply find_Some in E. by destruct (H pre post).
Qed.

Lemma not_elem_of_word (l : str) :
  forallb (λ c, negb (bool_decide (c = "\"%char))) l = true → "\"%char ∉ l.
Proof.
  intros H Hin. rewrite forallb_forall in H.
  apply list_elem_of_In in Hin. specialize (H _ Hin).
  by rewrite bool_decide_eq_true_2 in H.
Qed.

Lemma balance_left_right_counts u :
  num_delims (balance_left_right u) (py "\left")
  = num_delims (balance_left_right u) (py "\right").
Proof.
  unfold balance_left_right. case_bool_decide as E.
  - rewrite !num_delims_not_occurs; [done | |].
    + apply (replace_fuel_leaves_none "r" "b" (py "ight") (py "ig"));
        [by apply not_elem_of_word | by apply not_elem_of_word | done | lia].
    + apply (replace_fuel_brings_none "l" "b" (py "eft") (py "ig"));
        [by apply not_elem_of_word | by apply not_elem_of_word | done |].
      apply (replace_fuel_leaves_none "l" "b" (py "eft") (py "ig"));
        [by apply not_elem_of_word | by apply not_elem_of_word | done | lia].
  - destruct (decide (num_delims u (py "\left") = num_delims u (py "\right")));
      [done|]. by destruct E.
Qed.

(** X18: in the expression handed to the renderer, the [\left] that open
    a delimiter are as many as the [\right] that do: where they were not,
    none of either is left. *)
Theorem normalize_left_right_balance alignment t :
  num_delims (get_modified_expression alignment t) (py "\left")
  = num_delims (get_modified_expression alignment t) (py "\right").
Proof.
  rewrite get_modified_expression_unfold, modify_special_strings_unfold.
  cbv zeta. destruct (xorb _ _); [reflexivity|].
  unfold special_rewrites. apply balance_left_right_counts.
Qed.

End LeftRight.

(** ** Passing a configuration on *)

Section ConfigFacts.

Context {V : Type}.

Implicit Types (fields : gset string) (kwargs args : gmap string V).


End ConfigFacts.


Example from_other_config_sample :
  (λ k, match from_other_config sample_fields 0 sample_config with
        | Ok args => args !! k
        | Raise _ => None
        end)
    <$> [ "tex_string"; "type"; "alignment"; "substrings_to_isolate";
          "tex_to_color_map" ]%string
  = [Some 0; Some 3; Some 4; None; None].
Proof. vm_compute. reflexivity. Qed.

(** ** The normaliser on a well-formed expression *)

Section NormaliserClean.

Implicit Types (t : str).

Lemma strip_after_space t : strip (py " " ++ t) = strip t.
Proof. reflexivity. Qed.

(** X20: an expression that needs none of the repairs is handed to the
    renderer as it is. *)
Theorem normalize_clean_unchanged t :
  strip t = t →
  count "{" t = count "}" t →
  should_add_filler t = false →
  t ≠ py "\substack" → t ≠ [] →
  startswith t (py "\\") = false →
  num_delims t (py "\left") = num_delims t (py "\right") →
  contains (py "\begin{array}") t = contains (py "\end{array}") t →
  get_modified_expression [] t = t.
Proof.
  intros Hstrip Hbal Hfill Hsub Hne Hlb Hlr Harr.
  rewrite get_modified_expression_unfold.
  change ([] ++ py " " ++ t) with (py " " ++ t).
  rewrite strip_after_space, Hstrip, modify_special_strings_unfold. cbv zeta.
  assert (Hu : special_rewrites t = t).
  { unfold special_rewrites. rewrite (remove_stray_braces_balanced t Hbal).
    unfold add_filler. rewrite Hfill.
    unfold replace_substack. rewrite bool_decide_eq_false_2 by done.
    unfold replace_empty. rewrite bool_decide_eq_false_2 by done.
    unfold guard_line_break. rewrite Hlb.
    unfold balance_left_right. rewrite bool_decide_eq_false_2; [done|].
    intros H. by apply H. }
  rewrite Hu, Harr. by destruct (contains (py "\end{array}") t).
Qed.

End NormaliserClean.

Lemma normalize_clean_unchanged_witness :
  get_modified_expression [] (py "\left( x^2 \right)") = py "\left( x^2 \right)".
Proof.
  apply (normalize_clean_unchanged (py "\left( x^2 \right)"));
    first [reflexivity | discriminate].
Defined.

(** ** The methods on small inputs *)

Example split_left :
  split (py "a\left(b\leftc") (py "\left") = [py "a"; py "(b"; py "c"].
Proof. reflexivity. Qed.

Example replace_left :
  replace (py "a\left(b\leftc") (py "\left") (py "\big") = py "a\big(b\bigc".
Proof. reflexivity. Qed.

Example strip_both_ends : strip (py "  a b ") = py "a b".
Proof. reflexivity. Qed.

Example normalize_dangling_subscript :
  get_modified_expression [] (py "x_") = py "x_{\quad}".
Proof. reflexivity. Qed.

Example normalize_stray_right :
  get_modified_expression [] (py "{a}}") = py "{{a}}".
Proof. reflexivity. Qed.

Example normalize_empty : get_modified_expression [] [] = py "\quad".
Proof. reflexivity. Qed.

Example normalize_unmatched_left :
  get_modified_expression (py "\centering") (py "\left( x")
  = py "\centering \big( x".
Proof. reflexivity. Qed.

Example normalize_matched_left_right :
  get_modified_expression [] (py "\left( x \right)") = py "\left( x \right)".
Proof. reflexivity. Qed.

Example normalize_line_break :
  get_modified_expression [] (py "\\ a \\ b") = py "\quad\\ a \quad\\ b".
Proof. reflexivity. Qed.

Example getitem_last : getitem [10; 20; 30] (-1) = Ok 30.
Proof. reflexivity. Qed.

Example getitem_empty : getitem (@nil nat) (-1) = Raise IndexError.
Proof. reflexivity. Qed.

Example slice_clamped : slice [10; 20; 30] 2 5 = [30].
Proof. reflexivity. Qed.

Example break_up_tex_strings_words :
  break_up_tex_strings (λ l _, l) sample_abc [py " a "; py "  "; py "b"]
  = [py "a"; py "b"].
Proof. reflexivity. Qed.

Example find_x :
  tex_string <$> get_parts_by_tex sample_tagged (py "x") true true
  = [py "x"; py "x^2"].
Proof. vm_compute. reflexivity. Qed.

Example find_x_exact :
  tex_string <$> get_parts_by_tex sample_tagged (py "x") false true = [py "x"].
Proof. vm_compute. reflexivity. Qed.

Example find_capital_x :
  tex_string <$> get_parts_by_tex sample_tagged (py "X") true false
  = [py "x"; py "x^2"].
Proof. vm_compute. reflexivity. Qed.

Example sort_tags :
  tex_string
    <$> sort_by_key
          [ {| tex_string := py "y"; submobjects := @nil (Submobject nat nat);
               color := None |};
            {| tex_string := py "x^2"; submobjects := []; color := None |};
            {| tex_string := py "x"; submobjects := []; color := None |} ]
  = [py "x"; py "x^2"; py "y"].
Proof. vm_compute. reflexivity. Qed.
